(** * Fibonacci numbers and pi estimators: a shallow embedding

    The development follows the two Python 2 scripts of the repository,
    [fibonacci.py] and [pi_simulation.py].  Python integers are unbounded,
    so they are [Z]; Python floats are IEEE binary64 numbers, modelled by
    [spec_float] at precision 53; a call returns a [result], a value or a
    raised exception; the memoization dictionary and the random generator
    are threaded as explicit state; the recursive function takes the number
    of nested calls the interpreter still allows. *)

From Stdlib Require Import ZArith List String Ascii Bool Lia.
From Stdlib Require Import Floats.SpecFloat.
From stdpp Require Import base option list gmap.

Local Open Scope Z_scope.

(** ** Exceptions and the two monads *)

(** The built-in exceptions the scripts (and the built-ins they call) raise. *)
Inductive exn : Set :=
| ValueError
| IndexError
| KeyError
| ZeroDivisionError
| OverflowError
| RuntimeError.

(** Outcome of evaluating an expression: a value or a raised exception. *)
Inductive result (A : Type) : Type :=
| Return (a : A)
| Raise (e : exn).
Arguments Return {A} a.
Arguments Raise {A} e.

Definition bind {A B : Type} (m : result A) (k : A -> result B) : result B :=
  match m with
  | Return a => k a
  | Raise e => Raise e
  end.

(** Code that also reads or writes a store of type [S].  The store survives
    an exception: what was written before the [raise] stays written. *)
Definition M (S A : Type) : Type := S -> result A * S.

Definition sret {S A : Type} (a : A) : M S A := fun s => (Return a, s).

Definition sraise {S A : Type} (e : exn) : M S A := fun s => (Raise e, s).

Definition sbind {S A B : Type} (m : M S A) (k : A -> M S B) : M S B :=
  fun s =>
    match m s with
    | (Return a, s') => k a s'
    | (Raise e, s') => (Raise e, s')
    end.

Definition lift {S A : Type} (r : result A) : M S A := fun s => (r, s).

Declare Scope result_scope.
Delimit Scope result_scope with result.
Notation "x <- m ;; k" := (bind m (fun x => k))
  (at level 20, m at level 99, k at level 200) : result_scope.

Declare Scope state_scope.
Delimit Scope state_scope with state.
Notation "x <- m ;; k" := (sbind m (fun x => k))
  (at level 20, m at level 99, k at level 200) : state_scope.

(** ** Built-ins *)

(** [range(lo, hi)]: the integers [lo], [lo+1], ..., [hi-1].  The list is
    built whatever its length: what the interpreter can hold in a list (its
    memory, [sys.maxsize]) is not part of the model. *)
Definition range (lo hi : Z) : list Z := seqZ lo (hi - lo).

(** A [for] loop whose body updates the local variables [acc] and may raise. *)
Fixpoint for_loop {A : Type} (body : A -> Z -> result A) (l : list Z) (acc : A)
  : result A :=
  match l with
  | [] => Return acc
  | i :: l' =>
      match body acc i with
      | Return acc' => for_loop body l' acc'
      | Raise e => Raise e
      end
  end.

(** A [for] loop over a store, with local variables [acc]. *)
Fixpoint sfor_loop {S A : Type} (body : A -> Z -> M S A) (l : list Z) (acc : A)
  : M S A :=
  match l with
  | [] => sret acc
  | i :: l' => sbind (body acc i) (fun acc' => sfor_loop body l' acc')
  end.

(** [l[i]] on a list: a negative index counts from the end, an index out of
    range raises [IndexError]. *)
Definition list_getitem (l : list Z) (i : Z) : result Z :=
  let j := if i <? 0 then i + Z.of_nat (length l) else i in
  if j <? 0 then Raise IndexError
  else match l !! Z.to_nat j with
       | Some v => Return v
       | None => Raise IndexError
       end.

(** Dictionary operations on the store. *)
Definition dict_contains (k : Z) : M (gmap Z Z) bool :=
  fun d => (Return (bool_decide (is_Some (d !! k))), d).

Definition dict_len : M (gmap Z Z) Z :=
  fun d => (Return (Z.of_nat (size d)), d).

Definition dict_getitem (k : Z) : M (gmap Z Z) Z :=
  fun d =>
    match d !! k with
    | Some v => (Return v, d)
    | None => (Raise KeyError, d)
    end.

Definition dict_setitem (k v : Z) : M (gmap Z Z) unit :=
  fun d => (Return tt, <[k := v]> d).

(** [bin(n)]: ["0b"] then the binary digits, most significant first, with a
    leading minus sign for a negative number. *)
Fixpoint pos_digits (p : positive) (acc : string) : string :=
  match p with
  | xH => String "1" acc
  | xO q => pos_digits q (String "0" acc)
  | xI q => pos_digits q (String "1" acc)
  end.

Definition bin (n : Z) : string :=
  match n with
  | Z0 => "0b0"
  | Zpos p => String "0" (String "b" (pos_digits p EmptyString))
  | Zneg p => String "-" (String "0" (String "b" (pos_digits p EmptyString)))
  end.

(** The slice [s[k:]] for a non-negative [k]. *)
Fixpoint slice_from (k : nat) (s : string) : string :=
  match k, s with
  | O, _ => s
  | S k', String _ s' => slice_from k' s'
  | S _, EmptyString => EmptyString
  end.

(** ** fibonacci.py *)

(** The interpreter bounds the depth of nested calls
    ([sys.getrecursionlimit()], 1000 unless it is changed) and raises
    [RuntimeError], maximum recursion depth exceeded, on the call that would
    go beyond it.  [frames] is the number of calls that may still be nested
    when the function is called: each call takes one, and hands what is left
    to the calls it makes.  The function below is the only one whose depth
    grows with its argument; the others nest one call, or two for the
    decorated one, whatever n is. *)
Fixpoint fib_by_recursive (frames : nat) (n : Z) : result Z :=
  match frames with
  | O => Raise RuntimeError
  | S frames' =>
      if n <? 0 then Raise ValueError
      else if n <=? 1 then Return n
      else
        (x <- fib_by_recursive frames' (n - 1) ;;
         y <- fib_by_recursive frames' (n - 2) ;;
         Return (x + y))%result
  end.

Definition fib_by_loop (n : Z) : result Z :=
  if n <? 0 then Raise ValueError
  else if n <=? 1 then Return n
  else
    let '(a, b) :=
      fold_left (fun '(a, b) (_ : Z) => (b, a + b)) (range 2 (n + 1)) (0, 1) in
    Return b.

Definition fib_by_dp (n : Z) : result (list Z) :=
  if n <? 0 then Raise ValueError
  else
    for_loop
      (fun fibs i =>
         (x <- list_getitem fibs (i - 1) ;;
          y <- list_getitem fibs (i - 2) ;;
          Return (fibs ++ [x + y]))%result)
      (range 2 (n + 1)) [0; 1].

(** The decorator: it creates the dictionary once and returns [inner], which
    passes that same dictionary to every call of [func]. *)
Definition cache_for_fib (func : Z -> M (gmap Z Z) Z)
  : gmap Z Z * (Z -> M (gmap Z Z) Z) :=
  let cache : gmap Z Z := <[1 := 1]> (<[0 := 0]> ∅) in
  let inner := fun n => func n in
  (cache, inner).

(** The function under the decorator: [cache] is the store. *)
Definition fib_by_cache_func (n : Z) : M (gmap Z Z) Z :=
  if n <? 0 then sraise ValueError
  else
    (present <- dict_contains n ;;
     _ <- (if negb present
      then
        (len <- dict_len ;;
         sfor_loop
           (fun (_ : unit) i =>
              x <- dict_getitem (i - 1) ;;
              y <- dict_getitem (i - 2) ;;
              dict_setitem i (x + y))
           (range len (n + 1)) tt)
      else sret tt) ;;
     dict_getitem n)%state.

(** The dictionary the decorator creates when the module is loaded. *)
Definition initial_cache : gmap Z Z := fst (cache_for_fib fib_by_cache_func).

(** The decorated function, as the module exports it. *)
Definition fib_by_cache : Z -> M (gmap Z Z) Z := snd (cache_for_fib fib_by_cache_func).

Definition fib_by_matrix (n : Z) : result Z :=
  if n <? 0 then Raise ValueError
  else if n <=? 1 then Return n
  else
    let '(a, b, c) :=
      fold_left
        (fun '(a, b, c) (i : ascii) =>
           let tmp := b ^ 2 in
           let '(a, b, c) := (a ^ 2 + tmp, a * b + b * c, tmp + c ^ 2) in
           if Ascii.eqb i "1" then (a + b, a, b) else (a, b, c))
        (list_ascii_of_string (slice_from 3 (bin n))) (1, 1, 0) in
    Return b.

(** ** Floats

    A Python float is an IEEE 754 binary64 number.  Arithmetic rounds to
    nearest, ties to even, and never traps; the interpreter adds the
    exceptions written out below. *)

Definition float : Type := spec_float.

Definition prec : Z := 53.
Definition emax : Z := 1024.

(** [float(k)], and the conversion of an integer operand that meets a float:
    correctly rounded, [OverflowError] when [k] is beyond the float range. *)
Definition float_of_int (k : Z) : result float :=
  match binary_normalize prec emax k 0 false with
  | S754_infinity _ => Raise OverflowError
  | f => Return f
  end.

(** The conversion rounds to nearest: the integers it cannot convert start
    at [2^1024 - 2^970], half-way between the largest float and [2^1024]. *)
Definition float_limit : Z := 2 ^ 1024 - 2 ^ 970.

Definition float_is_zero (f : float) : bool :=
  match f with
  | S754_zero _ => true
  | _ => false
  end.

Definition float_add (a b : float) : float := SFadd prec emax a b.

Definition float_sub (a b : float) : float := SFsub prec emax a b.

(** [a / b] on floats: a zero divisor raises, anything else is IEEE division. *)
Definition float_div (a b : float) : result float :=
  if float_is_zero b then Raise ZeroDivisionError
  else Return (SFdiv prec emax a b).

(** [k / b] with an integer on the left: the integer is converted first. *)
Definition int_div_float (k : Z) (b : float) : result float :=
  (a <- float_of_int k ;; float_div a b)%result.

(** [a + b] and [a - b] with an integer on the left. *)
Definition int_add_float (k : Z) (b : float) : result float :=
  (a <- float_of_int k ;; Return (float_add a b))%result.

Definition int_sub_float (k : Z) (b : float) : result float :=
  (a <- float_of_int k ;; Return (float_sub a b))%result.

(** [a / k] with an integer on the right. *)
Definition float_div_int (a : float) (k : Z) : result float :=
  (b <- float_of_int k ;; float_div a b)%result.

(** [a <= k] with an integer on the right (exact for the small [k] used). *)
Definition float_le_int (a : float) (k : Z) : bool :=
  SFleb a (binary_normalize prec emax k 0 false).

(** [math.sqrt(k)] of an integer: a negative argument is a domain error. *)
Definition math_sqrt (k : Z) : result float :=
  (x <- float_of_int k ;;
   match x with
   | S754_finite true _ _ | S754_infinity true => Raise ValueError
   | _ => Return (SFsqrt prec emax x)
   end)%result.

(** [int(x)] of a float: truncation toward zero. *)
Definition int_of_float (x : float) : result Z :=
  match x with
  | S754_zero _ => Return 0
  | S754_infinity _ => Raise OverflowError
  | S754_nan => Raise ValueError
  | S754_finite s m e =>
      Return (cond_Zopp s (if 0 <=? e then Zpos m * 2 ^ e else Zpos m / 2 ^ (- e)))
  end.

(** [round(x)] of a float: to the nearest integer, halves away from zero;
    the result is again a float. *)
Definition round_float (x : float) : float :=
  match x with
  | S754_finite s m e =>
      if 0 <=? e then x
      else binary_normalize prec emax
             (cond_Zopp s ((Zpos m + 2 ^ (- e - 1)) / 2 ^ (- e))) 0 s
  | _ => x
  end.

(** ** Library calls taken as parameters

    [float_pow x k] is the interpreter's [x ** k] on a float and an integer,
    which goes through the C library's [pow]; [random_random] is
    [random.random()], which returns a float and advances the generator. *)
Section Library.

Variable float_pow : float -> Z -> result float.

Variable rng : Type.
Variable random_random : rng -> float * rng.

(** *** fibonacci.py, continued *)

Definition fib_by_binet (n : Z) : result Z :=
  if n <? 0 then Raise ValueError
  else
    (sqrt5 <- math_sqrt 5 ;;
     s1 <- int_add_float 1 sqrt5 ;;
     phi <- float_div_int s1 2 ;;
     phin <- float_pow phi n ;;
     s2 <- int_sub_float 1 sqrt5 ;;
     psi <- float_div_int s2 2 ;;
     psin <- float_pow psi n ;;
     q <- float_div (float_sub phin psin) sqrt5 ;;
     int_of_float q)%result.

Definition fib_by_binet_approx (n : Z) : result Z :=
  if n <? 0 then Raise ValueError
  else
    (sqrt5 <- math_sqrt 5 ;;
     s1 <- int_add_float 1 sqrt5 ;;
     phi <- float_div_int s1 2 ;;
     phin <- float_pow phi n ;;
     q <- float_div phin sqrt5 ;;
     int_of_float (round_float q))%result.

(** *** pi_simulation.py *)

Definition pi_simulation (n : Z) : M rng float :=
  if n <? 0 then sraise ValueError
  else
    (count <-
       sfor_loop
         (fun count x =>
            sfor_loop
              (fun count y =>
                 if x ^ 2 + y ^ 2 <=? n ^ 2 then sret (count + 1)
                 else sret count)
              (range 0 (n + 1)) count)
         (range 0 (n + 1)) 0 ;;
     den <- lift (float_of_int ((n + 1) ^ 2)) ;;
     lift (int_div_float (4 * count) den))%state.

Definition pi_simulation_by_random (n : Z) : M rng float :=
  if n <? 0 then sraise ValueError
  else
    (count <-
       sfor_loop
         (fun count _ =>
            x <- (fun g => let '(v, g') := random_random g in (Return v, g')) ;;
            y <- (fun g => let '(v, g') := random_random g in (Return v, g')) ;;
            x2 <- lift (float_pow x 2) ;;
            y2 <- lift (float_pow y 2) ;;
            if float_le_int (float_add x2 y2) 1 then sret (count + 1)
            else sret count)
         (range 0 n) 0 ;;
     den <- lift (float_of_int n) ;;
     lift (int_div_float (4 * count) den))%state.

End Library.

Arguments pi_simulation {rng} n _.
Arguments pi_simulation_by_random float_pow {rng} random_random n _.

(** ** A reference instance of the library parameters

    These definitions make the parametric functions runnable.  The power
    is the correctly rounded one: a float is a dyadic number, so its integer
    powers are dyadic too and [binary_normalize] rounds them; as in the
    interpreter, a zero exponent gives 1.0 and a result beyond the float
    range raises [OverflowError].  The generator is a linear congruential
    one that returns floats in [0, 1). *)

Definition float_is_finite (f : float) : bool :=
  match f with
  | S754_zero _ | S754_finite _ _ _ => true
  | S754_infinity _ | S754_nan => false
  end.

Definition float_one : float := binary_normalize prec emax 1 0 false.

Definition check_range (f : float) : result float :=
  match f with
  | S754_infinity _ => Raise OverflowError
  | _ => Return f
  end.

Definition pow_reference (x : float) (k : Z) : result float :=
  if k =? 0 then Return float_one
  else
    match x with
    | S754_nan => Return S754_nan
    | S754_infinity s =>
        if 0 <? k then Return (S754_infinity (s && Z.odd k))
        else Return (S754_zero (s && Z.odd k))
    | S754_zero s =>
        if 0 <? k then Return (S754_zero (s && Z.odd k))
        else Raise ZeroDivisionError
    | S754_finite s m e =>
        if 0 <? k
        then check_range
               (binary_normalize prec emax
                  (cond_Zopp (s && Z.odd k) (Zpos m ^ k)) (e * k) false)
        else check_range
               (SFdiv prec emax float_one
                  (S754_finite (s && Z.odd k) (m ^ Z.to_pos (- k)) (e * - k)))
    end.

(** A power that is off by one unit in the last place: the float just
    below the correctly rounded one. *)
Definition pow_below (x : float) (k : Z) : result float :=
  (r <- pow_reference x k ;; Return (SFpred prec emax r))%result.

Definition lcg_random (g : Z) : float * Z :=
  let g' := (1103515245 * g + 12345) mod 2 ^ 31 in
  (SFdiv prec emax (binary_normalize prec emax g' 0 false)
     (binary_normalize prec emax (2 ^ 31) 0 false),
   g').

(** The constants of Binet's formula as the scripts compute them: the float
    square root of five, and the two floats [(1 + sqrt5) / 2] and
    [(1 - sqrt5) / 2]. *)
Definition float_sqrt5 : float := S754_finite false 5035177455121576 (-51).
Definition float_phi : float := S754_finite false 7286977268806824 (-52).
Definition float_psi : float := S754_finite true 5566755282872656 (-53).

(** ** What the specification talks about *)

(** The Fibonacci sequence: 0, 1, 1, 2, 3, 5, ... *)
Fixpoint fib (k : nat) : Z :=
  match k with
  | O => 0
  | S k' =>
      match k' with
      | O => 1
      | S k'' => fib k' + fib k''
      end
  end.

(** The first [k] Fibonacci numbers, in order. *)
Definition fib_prefix (k : nat) : list Z := map fib (seq 0 k).

(** A dictionary that holds exactly the indices [0..m], each with its
    Fibonacci number. *)
Definition cache_upto (m : Z) (d : gmap Z Z) : Prop :=
  forall k : Z,
    d !! k = if bool_decide (0 <= k <= m) then Some (fib (Z.to_nat k)) else None.

(** The same dictionary, built entry by entry. *)
Fixpoint fib_map (m : nat) : gmap Z Z :=
  match m with
  | O => <[0 := 0]> ∅
  | S m' => <[Z.of_nat m := fib m]> (fib_map m')
  end.

(** A sequence of calls of [fib_by_cache] on the shared dictionary: the
    results in order, and the dictionary left behind. *)
Fixpoint run_calls (ns : list Z) (d : gmap Z Z) : list (result Z) * gmap Z Z :=
  match ns with
  | [] => ([], d)
  | n :: ns' =>
      let '(r, d') := fib_by_cache n d in
      let '(rs, d'') := run_calls ns' d' in
      (r :: rs, d'')
  end.

(** The lattice points of the quarter disk of radius [n]: pairs [(x, y)] with
    [0 <= x, y <= n] and [x^2 + y^2 <= n^2]. *)
Definition lattice_points (n : Z) : list (Z * Z) :=
  List.filter (fun p => fst p ^ 2 + snd p ^ 2 <=? n ^ 2)
    (list_prod (range 0 (n + 1)) (range 0 (n + 1))).

Definition lattice_count (n : Z) : Z := Z.of_nat (length (lattice_points n)).

(** The error contract of the specification, for one function: it raises
    [ValueError] exactly on a negative argument, and raises nothing else. *)
Definition raises_iff_negative {A : Type} (f : Z -> result A) : Prop :=
  forall n : Z, f n = Raise ValueError <-> n < 0.

Definition raises_nothing_else {A : Type} (f : Z -> result A) : Prop :=
  forall (n : Z) (e : exn), f n = Raise e -> e = ValueError.

Definition error_contract {A : Type} (f : Z -> result A) : Prop :=
  raises_iff_negative f /\ raises_nothing_else f.

(** A function that raises nothing outside the listed exceptions. *)
Definition raises_only {A : Type} (allowed : list exn) (f : Z -> result A) : Prop :=
  forall (n : Z) (e : exn), f n = Raise e -> In e allowed.

(** What the library power is assumed to do on a non-negative integer
    exponent: it raises nothing but [OverflowError], and on a finite base a
    result it returns is finite. *)
Definition pow_raises_overflow_only (float_pow : float -> Z -> result float) : Prop :=
  forall (x : float) (k : Z) (e : exn),
    0 <= k -> float_pow x k = Raise e -> e = OverflowError.

Definition pow_stays_finite (float_pow : float -> Z -> result float) : Prop :=
  forall (x : float) (k : Z) (r : float),
    0 <= k -> float_is_finite x = true ->
    float_pow x k = Return r -> float_is_finite r = true.

(** A library power that is correctly rounded, and one that is accurate to
    one unit in the last place: it returns the correctly rounded power or
    one of the two floats next to it. *)
Definition pow_correctly_rounded (float_pow : float -> Z -> result float) : Prop :=
  forall (x : float) (k : Z), 0 <= k -> float_pow x k = pow_reference x k.

Definition pow_within_one_ulp (float_pow : float -> Z -> result float) : Prop :=
  forall (x : float) (k : Z) (r : float),
    0 <= k -> pow_reference x k = Return r ->
    float_pow x k = Return (SFpred prec emax r) \/
    float_pow x k = Return r \/
    float_pow x k = Return (SFsucc prec emax r).

(** The closed form as the specification words it, with the quotient
    rounded to the nearest integer where fib_by_binet truncates it, and the
    specification's contract for the two closed forms. *)
Definition binet_rounded (float_pow : float -> Z -> result float) (n : Z) : result Z :=
  if n <? 0 then Raise ValueError
  else
    (sqrt5 <- math_sqrt 5 ;;
     s1 <- int_add_float 1 sqrt5 ;;
     phi <- float_div_int s1 2 ;;
     phin <- float_pow phi n ;;
     s2 <- int_sub_float 1 sqrt5 ;;
     psi <- float_div_int s2 2 ;;
     psin <- float_pow psi n ;;
     q <- float_div (float_sub phin psin) sqrt5 ;;
     int_of_float (round_float q))%result.

Definition binet_contract (float_pow : float -> Z -> result float) : Prop :=
  (forall n : Z, 0 <= n -> fib_by_binet float_pow n = binet_rounded float_pow n) /\
  (forall n : Z,
     0 <= n <= 40 ->
     fib_by_binet float_pow n = Return (fib (Z.to_nat n)) /\
     fib_by_binet_approx float_pow n = Return (fib (Z.to_nat n))).

(** The length contract of the specification for [fib_by_dp]. *)
Definition dp_contract (n : Z) : Prop :=
  exists l : list Z,
    fib_by_dp n = Return l /\
    Z.of_nat (length l) = n + 1 /\
    forall i : nat, (i < length l)%nat -> l !! i = Some (fib i).

(** The largest argument of a sequence of calls, and at least 1, the largest
    index of the seed. *)
Definition max_arg (ns : list Z) : Z := fold_right Z.max 1 ns.

(** Binary digits read back, most significant first, onto the number [k]
    read so far. *)
Definition read_binary (digits : list ascii) (k : Z) : Z :=
  fold_left (fun k c => 2 * k + (if Ascii.eqb c "1" then 1 else 0)) digits k.

(** The state of the generator after [k] draws. *)
Definition advance {rng : Type} (random_random : rng -> float * rng)
    (k : nat) (g : rng) : rng :=
  Nat.iter k (fun g0 => snd (random_random g0)) g.

(** The [k] pairs that [k] passes of the Monte Carlo loop draw from the
    generator in state [g], x before y, and the test the loop makes on a
    pair. *)
Fixpoint drawn_pairs {rng : Type} (random_random : rng -> float * rng)
    (k : nat) (g : rng) : list (float * float) :=
  match k with
  | O => []
  | S k' =>
      let '(x, g1) := random_random g in
      let '(y, g2) := random_random g1 in
      (x, y) :: drawn_pairs random_random k' g2
  end.

Definition is_hit (float_pow : float -> Z -> result float) (p : float * float) : bool :=
  match float_pow (fst p) 2, float_pow (snd p) 2 with
  | Return x2, Return y2 => float_le_int (float_add x2 y2) 1
  | _, _ => false
  end.

(** Whether the power returns on both numbers of a pair, and the number of
    hits among the pairs that [n] passes draw. *)
Definition squares_return (float_pow : float -> Z -> result float)
    (p : float * float) : bool :=
  match float_pow (fst p) 2, float_pow (snd p) 2 with
  | Return _, Return _ => true
  | _, _ => false
  end.

Definition hits (float_pow : float -> Z -> result float) {rng : Type}
    (random_random : rng -> float * rng) (n : Z) (g : rng) : Z :=
  Z.of_nat (length (List.filter (is_hit float_pow)
                      (drawn_pairs random_random (Z.to_nat n) g))).

(** The two closed-form functions computed from the integer powers [P] and
    [Q] of the mantissas of [float_phi] and [float_psi], and a table of them
    for [k] consecutive arguments from [n] on, each power obtained from the
    one before by one multiplication. *)
Definition binet_with_powers (n P Q : Z) : result Z * result Z :=
  let phin := check_range (binary_normalize prec emax P (-52 * n) false) in
  let psin :=
    check_range (binary_normalize prec emax (cond_Zopp (Z.odd n) Q) (-53 * n) false) in
  ((a <- phin ;; b <- psin ;;
    q <- float_div (float_sub a b) float_sqrt5 ;; int_of_float q)%result,
   (a <- phin ;;
    q <- float_div a float_sqrt5 ;; int_of_float (round_float q))%result).

Fixpoint binet_table (k : nat) (n P Q : Z) : list (Z * (result Z * result Z)) :=
  match k with
  | O => []
  | S k' =>
      (n, binet_with_powers n P Q)
      :: binet_table k' (n + 1) (7286977268806824 * P) (5566755282872656 * Q)
  end.

(** The same for the truncated and the rounded quotient. *)
Definition binet_rounded_with_powers (n P Q : Z) : result Z * result Z :=
  let phin := check_range (binary_normalize prec emax P (-52 * n) false) in
  let psin :=
    check_range (binary_normalize prec emax (cond_Zopp (Z.odd n) Q) (-53 * n) false) in
  ((a <- phin ;; b <- psin ;;
    q <- float_div (float_sub a b) float_sqrt5 ;; int_of_float q)%result,
   (a <- phin ;; b <- psin ;;
    q <- float_div (float_sub a b) float_sqrt5 ;; int_of_float (round_float q))%result).

Fixpoint binet_rounded_table (k : nat) (n P Q : Z) : list (Z * (result Z * result Z)) :=
  match k with
  | O => []
  | S k' =>
      (n, binet_rounded_with_powers n P Q)
      :: binet_rounded_table k' (n + 1) (7286977268806824 * P) (5566755282872656 * Q)
  end.

(** ** Proofs: monads and loops *)

Lemma range_length (lo hi : Z) : length (range lo hi) = Z.to_nat (hi - lo).
Proof. unfold range. apply length_seqZ. Qed.

Lemma range_nil (lo hi : Z) : hi <= lo -> range lo hi = [].
Proof.
  intros H. unfold range, seqZ.
  replace (Z.to_nat (hi - lo)) with 0%nat by lia. reflexivity.
Qed.

Lemma range_cons (lo hi : Z) : lo < hi -> range lo hi = lo :: range (lo + 1) hi.
Proof.
  intros H. unfold range. rewrite seqZ_cons by lia.
  f_equal. f_equal; lia.
Qed.

Lemma elem_of_range (lo hi k : Z) : k ∈ range lo hi <-> lo <= k < hi.
Proof. unfold range. rewrite elem_of_seqZ. lia. Qed.

Lemma NoDup_range (lo hi : Z) : NoDup (range lo hi).
Proof. unfold range. apply NoDup_seqZ. Qed.

(** ** Proofs: the Fibonacci sequence *)

Lemma fib_SS (k : nat) : fib (S (S k)) = fib (S k) + fib k.
Proof. reflexivity. Qed.

(** The addition law, from which the doubling identities follow. *)
Lemma fib_add (m n : nat) :
  fib (S (m + n)) = fib (S m) * fib (S n) + fib m * fib n.
Proof.
  revert n; induction m as [|m IH]; intros n.
  - simpl (0 + n)%nat. change (fib 1) with 1. change (fib 0) with 0. lia.
  - replace (S (S m + n)) with (S (m + S n)) by lia.
    rewrite IH. rewrite !fib_SS. ring.
Qed.

Lemma fib_double_odd (j : nat) :
  fib (S (2 * S j)) = fib (S (S j)) ^ 2 + fib (S j) ^ 2.
Proof.
  replace (2 * S j)%nat with (S j + S j)%nat by lia.
  rewrite fib_add. ring.
Qed.

Lemma fib_double_even (j : nat) :
  fib (2 * S j) = fib (S (S j)) * fib (S j) + fib (S j) * fib j.
Proof.
  replace (2 * S j)%nat with (S (S j + j)) by lia.
  rewrite fib_add. ring.
Qed.

Lemma fib_double_pred (j : nat) :
  fib (S (2 * j)) = fib (S j) ^ 2 + fib j ^ 2.
Proof.
  replace (2 * j)%nat with (j + j)%nat by lia.
  rewrite fib_add. ring.
Qed.

Lemma fib_prefix_length (k : nat) : length (fib_prefix k) = k.
Proof. unfold fib_prefix. rewrite length_map, length_seq. reflexivity. Qed.

Lemma fib_prefix_lookup (k i : nat) : (i < k)%nat -> fib_prefix k !! i = Some (fib i).
Proof.
  intros H. unfold fib_prefix.
  rewrite list_lookup_fmap, lookup_seq_lt by exact H. reflexivity.
Qed.

Lemma fib_prefix_S (k : nat) : fib_prefix (S k) = fib_prefix k ++ [fib k].
Proof. unfold fib_prefix. rewrite seq_S, map_app. reflexivity. Qed.

(** ** Proofs: the exact Fibonacci functions *)

Lemma fib_by_recursive_negative (frames : nat) (n : Z) :
  (1 <= frames)%nat -> n < 0 -> fib_by_recursive frames n = Raise ValueError.
Proof.
  intros Hf H. destruct frames as [|frames]; [lia|]. cbn [fib_by_recursive].
  destruct (Z.ltb_spec n 0); [reflexivity | lia].
Qed.

(** With [max n 1] calls left the recursion goes through. *)
Lemma fib_by_recursive_spec (frames : nat) (n : Z) :
  0 <= n -> Z.max n 1 <= Z.of_nat frames ->
  fib_by_recursive frames n = Return (fib (Z.to_nat n)).
Proof.
  revert n; induction frames as [|frames IH]; intros n Hn Hf; [lia|].
  cbn [fib_by_recursive].
  destruct (Z.ltb_spec n 0); [lia|].
  destruct (Z.leb_spec n 1).
  - assert (n = 0 \/ n = 1) as [-> | ->] by lia; reflexivity.
  - rewrite (IH (n - 1)), (IH (n - 2)) by lia. cbn [bind].
    replace (Z.to_nat n) with (S (S (Z.to_nat (n - 2)))) by lia.
    replace (Z.to_nat (n - 1)) with (S (Z.to_nat (n - 2))) by lia.
    rewrite fib_SS. reflexivity.
Qed.

(** With fewer, the first descent [n], [n - 1], [n - 2], ... runs out of
    calls before it reaches 1. *)
Lemma fib_by_recursive_exhausted (frames : nat) (n : Z) :
  Z.of_nat frames < Z.max n 1 -> fib_by_recursive frames n = Raise RuntimeError.
Proof.
  revert n; induction frames as [|frames IH]; intros n Hf; [reflexivity|].
  cbn [fib_by_recursive].
  destruct (Z.ltb_spec n 0); [lia|].
  destruct (Z.leb_spec n 1); [lia|].
  rewrite (IH (n - 1)) by lia. reflexivity.
Qed.

(** The three outcomes of the recursive function. *)
Lemma fib_by_recursive_cases (frames : nat) (n : Z) :
  (1 <= frames)%nat ->
  fib_by_recursive frames n
  = if n <? 0 then Raise ValueError
    else if Z.max n 1 <=? Z.of_nat frames then Return (fib (Z.to_nat n))
    else Raise RuntimeError.
Proof.
  intros Hf. destruct (Z.ltb_spec n 0).
  - apply fib_by_recursive_negative; assumption.
  - destruct (Z.leb_spec (Z.max n 1) (Z.of_nat frames)).
    + apply fib_by_recursive_spec; assumption.
    + apply fib_by_recursive_exhausted; assumption.
Qed.

Lemma fib_loop_step (l : list Z) (j : nat) :
  fold_left (fun '(a, b) (_ : Z) => (b, a + b)) l (fib j, fib (S j))
  = (fib (j + length l), fib (S (j + length l))).
Proof.
  revert j; induction l as [|i l IH]; intros j; cbn [fold_left length].
  - rewrite Nat.add_0_r. reflexivity.
  - replace (fib j + fib (S j)) with (fib (S (S j))) by (rewrite fib_SS; lia).
    rewrite (IH (S j)).
    replace (j + S (length l))%nat with (S j + length l)%nat by lia. reflexivity.
Qed.

Lemma fib_by_loop_negative (n : Z) : n < 0 -> fib_by_loop n = Raise ValueError.
Proof.
  intros H. unfold fib_by_loop.
  destruct (Z.ltb_spec n 0); [reflexivity | lia].
Qed.

Lemma fib_by_loop_spec (n : Z) : 0 <= n -> fib_by_loop n = Return (fib (Z.to_nat n)).
Proof.
  intros Hn. unfold fib_by_loop.
  destruct (Z.ltb_spec n 0); [lia|].
  destruct (Z.leb_spec n 1).
  - assert (n = 0 \/ n = 1) as [-> | ->] by lia; reflexivity.
  - change (0, 1) with (fib 0, fib 1).
    rewrite fib_loop_step, range_length.
    replace (S (0 + Z.to_nat (n + 1 - 2))) with (Z.to_nat n) by lia.
    reflexivity.
Qed.

Lemma list_getitem_fib_prefix (k : nat) (i : Z) :
  0 <= i < Z.of_nat k -> list_getitem (fib_prefix k) i = Return (fib (Z.to_nat i)).
Proof.
  intros H. unfold list_getitem.
  destruct (Z.ltb_spec i 0); [lia|].
  destruct (Z.ltb_spec i 0); [lia|].
  rewrite fib_prefix_lookup by lia. reflexivity.
Qed.

(** The loop of [fib_by_dp]: entering with the first [k] numbers and [len]
    indices to go, it leaves with the first [k + len]. *)
Lemma fib_by_dp_loop (len k : nat) :
  (2 <= k)%nat ->
  for_loop
    (fun fibs i =>
       (x <- list_getitem fibs (i - 1) ;;
        y <- list_getitem fibs (i - 2) ;;
        Return (fibs ++ [x + y]))%result)
    (range (Z.of_nat k) (Z.of_nat k + Z.of_nat len)) (fib_prefix k)
  = Return (fib_prefix (k + len)).
Proof.
  revert k; induction len as [|len IH]; intros k Hk.
  - rewrite range_nil by lia. rewrite Nat.add_0_r. reflexivity.
  - rewrite range_cons by lia. cbn [for_loop].
    rewrite !list_getitem_fib_prefix by lia. cbn [bind].
    replace (fib (Z.to_nat (Z.of_nat k - 1)) + fib (Z.to_nat (Z.of_nat k - 2)))
      with (fib k).
    2:{ replace k with (S (S (k - 2))) at 1 by lia. rewrite fib_SS.
        f_equal; f_equal; lia. }
    rewrite <- fib_prefix_S.
    replace (Z.of_nat k + 1) with (Z.of_nat (S k)) by lia.
    replace (Z.of_nat k + Z.of_nat (S len)) with (Z.of_nat (S k) + Z.of_nat len) by lia.
    rewrite IH by lia. f_equal. f_equal. lia.
Qed.

Lemma fib_by_dp_negative (n : Z) : n < 0 -> fib_by_dp n = Raise ValueError.
Proof.
  intros H. unfold fib_by_dp.
  destruct (Z.ltb_spec n 0); [reflexivity | lia].
Qed.

Lemma fib_by_dp_spec (n : Z) :
  0 <= n -> fib_by_dp n = Return (fib_prefix (Z.to_nat (Z.max (n + 1) 2))).
Proof.
  intros Hn. unfold fib_by_dp.
  destruct (Z.ltb_spec n 0); [lia|].
  change [0; 1] with (fib_prefix 2).
  destruct (Z_le_dec n 1) as [Hle|Hgt].
  - rewrite range_nil by lia. cbn [for_loop].
    replace (Z.to_nat (Z.max (n + 1) 2)) with 2%nat by lia. reflexivity.
  - pose proof (fib_by_dp_loop (Z.to_nat (n - 1)) 2 (le_n 2)) as Hloop.
    replace (Z.of_nat 2 + Z.of_nat (Z.to_nat (n - 1))) with (n + 1) in Hloop by lia.
    change (Z.of_nat 2) with 2 in Hloop.
    rewrite Hloop. f_equal. f_equal. lia.
Qed.

(** ** Proofs: the memoization dictionary *)

Lemma fib_map_lookup (m : nat) : cache_upto (Z.of_nat m) (fib_map m).
Proof.
  induction m as [|m IH]; intros k.
  - cbn [fib_map]. destruct (decide (k = 0)) as [->|Hk].
    + rewrite lookup_insert_eq. reflexivity.
    + rewrite lookup_insert_ne, lookup_empty by congruence.
      rewrite bool_decide_eq_false_2 by lia. reflexivity.
  - cbn [fib_map]. destruct (decide (k = Z.of_nat (S m))) as [->|Hk].
    + rewrite lookup_insert_eq, bool_decide_eq_true_2 by lia.
      rewrite Nat2Z.id. reflexivity.
    + rewrite lookup_insert_ne by congruence. rewrite IH.
      destruct (decide (0 <= k <= Z.of_nat m)).
      * rewrite !bool_decide_eq_true_2 by lia. reflexivity.
      * rewrite !bool_decide_eq_false_2 by lia. reflexivity.
Qed.

Lemma cache_upto_fib_map (m : Z) (d : gmap Z Z) :
  0 <= m -> cache_upto m d -> d = fib_map (Z.to_nat m).
Proof.
  intros Hm Hd. apply map_eq. intros k.
  rewrite Hd, (fib_map_lookup (Z.to_nat m) k), Z2Nat.id by exact Hm.
  reflexivity.
Qed.

Lemma fib_map_size (m : nat) : size (fib_map m) = S m.
Proof.
  induction m as [|m IH]; cbn [fib_map].
  - rewrite map_size_insert_None by apply lookup_empty.
    rewrite map_size_empty. reflexivity.
  - rewrite map_size_insert_None, IH; [reflexivity|].
    rewrite (fib_map_lookup m), bool_decide_eq_false_2 by lia. reflexivity.
Qed.

Lemma fib_map_get (m : nat) (k : Z) :
  0 <= k <= Z.of_nat m -> fib_map m !! k = Some (fib (Z.to_nat k)).
Proof.
  intros H. rewrite (fib_map_lookup m), bool_decide_eq_true_2 by exact H.
  reflexivity.
Qed.

Lemma fib_map_miss (m : nat) (k : Z) :
  ¬ (0 <= k <= Z.of_nat m) -> fib_map m !! k = None.
Proof.
  intros H. rewrite (fib_map_lookup m), bool_decide_eq_false_2 by exact H.
  reflexivity.
Qed.

Lemma fib_map_mono (m1 m2 : nat) : (m1 <= m2)%nat -> fib_map m1 ⊆ fib_map m2.
Proof.
  intros H. apply map_subseteq_spec. intros k v Hk.
  destruct (decide (0 <= k <= Z.of_nat m1)) as [Hin|Hout].
  - rewrite fib_map_get in Hk by exact Hin. rewrite fib_map_get by lia. exact Hk.
  - rewrite fib_map_miss in Hk by exact Hout. discriminate.
Qed.

Lemma initial_cache_fib_map : initial_cache = fib_map 1.
Proof. reflexivity. Qed.

(** The filling loop: entering with the entries [0..m] and [len] indices to
    go, it leaves with the entries [0..m+len]. *)
Lemma fib_by_cache_loop (len m : nat) :
  (1 <= m)%nat ->
  sfor_loop
    (fun (_ : unit) i =>
       (x <- dict_getitem (i - 1) ;;
        y <- dict_getitem (i - 2) ;;
        dict_setitem i (x + y))%state)
    (range (Z.of_nat (S m)) (Z.of_nat (S m) + Z.of_nat len)) tt (fib_map m)
  = (Return tt, fib_map (m + len)).
Proof.
  revert m; induction len as [|len IH]; intros m Hm.
  - rewrite range_nil by lia. rewrite Nat.add_0_r. reflexivity.
  - rewrite range_cons by lia. cbn [sfor_loop].
    unfold sbind at 1. unfold sbind at 1. unfold dict_getitem at 1.
    rewrite fib_map_get by lia.
    unfold sbind at 1. unfold dict_getitem at 1.
    rewrite fib_map_get by lia.
    unfold dict_setitem at 1.
    replace (fib (Z.to_nat (Z.of_nat (S m) - 1)) + fib (Z.to_nat (Z.of_nat (S m) - 2)))
      with (fib (S m)).
    2:{ replace (S m) with (S (S (m - 1))) at 1 by lia. rewrite fib_SS.
        f_equal; f_equal; lia. }
    change (<[Z.of_nat (S m) := fib (S m)]> (fib_map m)) with (fib_map (S m)).
    replace (Z.of_nat (S m) + 1) with (Z.of_nat (S (S m))) by lia.
    replace (Z.of_nat (S m) + Z.of_nat (S len))
      with (Z.of_nat (S (S m)) + Z.of_nat len) by lia.
    rewrite IH by lia. f_equal. f_equal. lia.
Qed.

Lemma fib_by_cache_negative (n : Z) (d : gmap Z Z) :
  n < 0 -> fib_by_cache n d = (Raise ValueError, d).
Proof.
  intros H. unfold fib_by_cache, cache_for_fib, fib_by_cache_func. cbn [snd].
  destruct (Z.ltb_spec n 0); [reflexivity | lia].
Qed.

(** One call on a well-formed dictionary: the right number comes back and
    the dictionary now reaches [max m n]. *)
Lemma fib_by_cache_spec (n : Z) (m : nat) :
  0 <= n -> (1 <= m)%nat ->
  fib_by_cache n (fib_map m)
  = (Return (fib (Z.to_nat n)), fib_map (Nat.max m (Z.to_nat n))).
Proof.
  intros Hn Hm. unfold fib_by_cache, cache_for_fib, fib_by_cache_func. cbn [snd].
  destruct (Z.ltb_spec n 0); [lia|].
  unfold sbind at 1. unfold dict_contains.
  destruct (decide (n <= Z.of_nat m)) as [Hin|Hout].
  - rewrite bool_decide_eq_true_2 by (rewrite fib_map_get by lia; eauto).
    cbn [negb]. unfold sbind, sret, dict_getitem.
    rewrite fib_map_get by lia.
    replace (Nat.max m (Z.to_nat n)) with m by lia. reflexivity.
  - rewrite bool_decide_eq_false_2
      by (rewrite fib_map_miss by lia; intros [v Hv]; discriminate).
    cbn [negb]. unfold sbind at 1. unfold sbind at 1. unfold dict_len.
    rewrite fib_map_size.
    pose proof (fib_by_cache_loop (Z.to_nat n - m) m Hm) as Hloop.
    replace (Z.of_nat (S m) + Z.of_nat (Z.to_nat n - m)) with (n + 1) in Hloop by lia.
    rewrite Hloop. unfold dict_getitem.
    rewrite fib_map_get by lia.
    replace (Nat.max m (Z.to_nat n)) with (m + (Z.to_nat n - m))%nat by lia.
    reflexivity.
Qed.

(** Well-formed dictionaries are exactly the tables [fib_map m], [m >= 1]. *)
Lemma run_calls_spec (ns : list Z) (m : nat) :
  (1 <= m)%nat ->
  exists m' : nat,
    (m <= m')%nat /\
    run_calls ns (fib_map m)
    = (map (fun n => if n <? 0 then Raise ValueError
                     else Return (fib (Z.to_nat n))) ns,
       fib_map m').
Proof.
  revert m; induction ns as [|n ns IH]; intros m Hm.
  - exists m. split; [lia | reflexivity].
  - cbn [run_calls map].
    destruct (Z.ltb_spec n 0) as [Hneg|Hpos].
    + rewrite fib_by_cache_negative by exact Hneg.
      destruct (IH m Hm) as (m' & Hle & ->). exists m'. split; [lia | reflexivity].
    + rewrite fib_by_cache_spec by assumption.
      destruct (IH (Nat.max m (Z.to_nat n)) ltac:(lia)) as (m' & Hle & ->).
      exists m'. split; [lia | reflexivity].
Qed.

Lemma run_calls_app (ns1 ns2 : list Z) (d : gmap Z Z) :
  run_calls (ns1 ++ ns2) d
  = let '(rs1, d1) := run_calls ns1 d in
    let '(rs2, d2) := run_calls ns2 d1 in
    (rs1 ++ rs2, d2).
Proof.
  revert d; induction ns1 as [|n ns1 IH]; intros d.
  - cbn [app run_calls]. destruct (run_calls ns2 d). reflexivity.
  - cbn [app run_calls]. destruct (fib_by_cache n d) as [r d'].
    rewrite IH. destruct (run_calls ns1 d') as [rs1 d1].
    destruct (run_calls ns2 d1) as [rs2 d2]. reflexivity.
Qed.

(** ** Proofs: the matrix variant *)

Lemma string_app_cons (c : ascii) (s1 s2 : string) :
  (String c s1 ++ s2 = String c (s1 ++ s2))%string.
Proof. reflexivity. Qed.

Lemma string_app_nil (s : string) : (EmptyString ++ s = s)%string.
Proof. reflexivity. Qed.

Lemma string_app_assoc (s1 s2 s3 : string) :
  ((s1 ++ s2) ++ s3 = s1 ++ (s2 ++ s3))%string.
Proof.
  induction s1 as [|c s1 IH].
  - rewrite !string_app_nil. reflexivity.
  - rewrite !string_app_cons, IH. reflexivity.
Qed.

Lemma pos_digits_acc (p : positive) (acc : string) :
  pos_digits p acc = (pos_digits p EmptyString ++ acc)%string.
Proof.
  revert acc; induction p as [p IH|p IH|]; intros acc; cbn [pos_digits].
  - rewrite IH, (IH (String "1" EmptyString)).
    rewrite string_app_assoc. reflexivity.
  - rewrite IH, (IH (String "0" EmptyString)).
    rewrite string_app_assoc. reflexivity.
  - reflexivity.
Qed.

Lemma pos_digits_head (p : positive) :
  exists s, pos_digits p EmptyString = String "1" s.
Proof.
  induction p as [p [s IH]|p [s IH]|]; cbn [pos_digits].
  - rewrite pos_digits_acc, IH, string_app_cons. eexists. reflexivity.
  - rewrite pos_digits_acc, IH, string_app_cons. eexists. reflexivity.
  - eexists. reflexivity.
Qed.

Lemma list_ascii_of_string_app (s1 s2 : string) :
  list_ascii_of_string (s1 ++ s2)
  = list_ascii_of_string s1 ++ list_ascii_of_string s2.
Proof.
  induction s1 as [|c s1 IH].
  - rewrite string_app_nil. reflexivity.
  - rewrite string_app_cons. cbn [list_ascii_of_string]. rewrite IH. reflexivity.
Qed.

(** Reading the digits after the leading one keeps the triple at three
    consecutive Fibonacci numbers around the number read so far. *)
Lemma fib_by_matrix_loop (p : positive) (s : string) :
  pos_digits p EmptyString = String "1" s ->
  fold_left
    (fun '(a, b, c) (i : ascii) =>
       let tmp := b ^ 2 in
       let '(a, b, c) := (a ^ 2 + tmp, a * b + b * c, tmp + c ^ 2) in
       if Ascii.eqb i "1" then (a + b, a, b) else (a, b, c))
    (list_ascii_of_string s) (1, 1, 0)
  = (fib (S (Pos.to_nat p)), fib (Pos.to_nat p), fib (Nat.pred (Pos.to_nat p))).
Proof.
  revert s; induction p as [p IH|p IH|]; intros s Hs.
  - cbn [pos_digits] in Hs. rewrite pos_digits_acc in Hs.
    destruct (pos_digits_head p) as [s' Hs']. rewrite Hs' in Hs.
    rewrite string_app_cons in Hs. injection Hs as <-.
    rewrite list_ascii_of_string_app, fold_left_app, (IH s' Hs').
    destruct (Pos2Nat.is_succ p) as [j Hj]. rewrite Hj.
    cbn [list_ascii_of_string fold_left Nat.pred]. cbn [Ascii.eqb Bool.eqb].
    rewrite Pos2Nat.inj_xI, Hj.
    cbn [Nat.pred].
    rewrite (fib_SS (2 * S j)), fib_double_odd, fib_double_even.
    reflexivity.
  - cbn [pos_digits] in Hs. rewrite pos_digits_acc in Hs.
    destruct (pos_digits_head p) as [s' Hs']. rewrite Hs' in Hs.
    rewrite string_app_cons in Hs. injection Hs as <-.
    rewrite list_ascii_of_string_app, fold_left_app, (IH s' Hs').
    destruct (Pos2Nat.is_succ p) as [j Hj]. rewrite Hj.
    cbn [list_ascii_of_string fold_left Nat.pred]. cbn [Ascii.eqb Bool.eqb].
    rewrite Pos2Nat.inj_xO, Hj.
    replace (Nat.pred (2 * S j)) with (S (2 * j)) by lia.
    rewrite fib_double_odd, fib_double_even, fib_double_pred.
    reflexivity.
  - cbn in Hs. injection Hs as <-. reflexivity.
Qed.

Lemma fib_by_matrix_negative (n : Z) : n < 0 -> fib_by_matrix n = Raise ValueError.
Proof.
  intros H. unfold fib_by_matrix.
  destruct (Z.ltb_spec n 0); [reflexivity | lia].
Qed.

Lemma fib_by_matrix_spec (n : Z) : 0 <= n -> fib_by_matrix n = Return (fib (Z.to_nat n)).
Proof.
  intros Hn. unfold fib_by_matrix.
  destruct (Z.ltb_spec n 0); [lia|].
  destruct (Z.leb_spec n 1).
  - assert (n = 0 \/ n = 1) as [-> | ->] by lia; reflexivity.
  - destruct n as [|p|p]; try lia.
    destruct (pos_digits_head p) as [s Hs].
    replace (slice_from 3 (bin (Z.pos p))) with s
      by (cbn [bin slice_from]; rewrite Hs; reflexivity).
    pose proof (fib_by_matrix_loop p s Hs) as Hloop.
    cbv zeta in Hloop |- *. rewrite Hloop, Z2Nat.inj_pos. reflexivity.
Qed.

(** ** The Fibonacci claims *)

Lemma run_calls_fib_map (ns : list Z) :
  exists m : nat, (1 <= m)%nat /\ snd (run_calls ns initial_cache) = fib_map m.
Proof.
  rewrite initial_cache_fib_map.
  destruct (run_calls_spec ns 1 (le_n 1)) as (m & Hm & ->).
  exists m. split; [exact Hm | reflexivity].
Qed.

Lemma fib_by_dp_getitem (n : Z) :
  0 <= n ->
  exists l : list Z,
    fib_by_dp n = Return l /\ list_getitem l n = Return (fib (Z.to_nat n)).
Proof.
  intros Hn. eexists. split; [apply fib_by_dp_spec; exact Hn|].
  apply list_getitem_fib_prefix. lia.
Qed.

(** C1: for every n in [0, 30] the five exact variants agree,
    fib_by_recursive(n) == fib_by_loop(n) == fib_by_dp(n)[n] ==
    fib_by_cache(n) == fib_by_matrix(n); the common value is the n-th
    Fibonacci number.  The recursive variant is called with max(n, 1) or
    more nested calls still allowed, which 30 always cover; the cached
    variant is called on the dictionary left by any earlier calls [ns]. *)
Theorem fib_variants_agree (frames : nat) (n : Z) (ns : list Z) :
  0 <= n <= 30 ->
  Z.max n 1 <= Z.of_nat frames ->
  fib_by_recursive frames n = Return (fib (Z.to_nat n)) /\
  fib_by_loop n = Return (fib (Z.to_nat n)) /\
  (exists l : list Z,
     fib_by_dp n = Return l /\ list_getitem l n = Return (fib (Z.to_nat n))) /\
  fst (fib_by_cache n (snd (run_calls ns initial_cache))) = Return (fib (Z.to_nat n)) /\
  fib_by_matrix n = Return (fib (Z.to_nat n)).
Proof.
  intros [Hn _] Hf.
  split; [apply fib_by_recursive_spec; assumption|].
  split; [apply fib_by_loop_spec; exact Hn|].
  split; [apply fib_by_dp_getitem; exact Hn|].
  split; [|apply fib_by_matrix_spec; exact Hn].
  destruct (run_calls_fib_map ns) as (m & Hm & ->).
  rewrite fib_by_cache_spec by assumption. reflexivity.
Qed.

Lemma fib_variants_agree_witness :
  0 <= 30 <= 30 /\
  Z.max 30 1 <= Z.of_nat 30 /\
  fib_by_recursive 30 30 = Return (fib (Z.to_nat 30)) /\
  fib_by_loop 30 = Return (fib (Z.to_nat 30)) /\
  (exists l : list Z,
     fib_by_dp 30 = Return l /\ list_getitem l 30 = Return (fib (Z.to_nat 30))) /\
  fst (fib_by_cache 30 (snd (run_calls [7; 3] initial_cache)))
  = Return (fib (Z.to_nat 30)) /\
  fib_by_matrix 30 = Return (fib (Z.to_nat 30)).
Proof.
  split; [lia|]. split; [lia|]. apply (fib_variants_agree 30 30 [7; 3]); lia.
Defined.

(** C2, as the specification words it, fails at [n = 0]: the list returned
    there is [[0, 1]], of length 2 and not [n + 1 = 1]. *)
Lemma fib_by_dp_length_counterexample :
  ~ (forall n : Z, 0 <= n -> dp_contract n).
Proof.
  intros H. destruct (H 0 ltac:(lia)) as (l & Hl & Hlen & _).
  rewrite fib_by_dp_spec in Hl by lia. injection Hl as <-.
  rewrite fib_prefix_length in Hlen. simpl in Hlen. lia.
Qed.

(** C2, amended: for every non-negative n, fib_by_dp(n) returns an ordered
    sequence whose index i holds the i-th Fibonacci number, so a prefix of
    the Fibonacci sequence; its length is n+1 when n >= 1, and 2 when
    n = 0. *)
Theorem fib_by_dp_prefix (n : Z) :
  0 <= n ->
  exists l : list Z,
    fib_by_dp n = Return l /\
    Z.of_nat (length l) = (if n =? 0 then 2 else n + 1) /\
    forall i : nat, (i < length l)%nat -> l !! i = Some (fib i).
Proof.
  intros Hn. eexists. split; [apply fib_by_dp_spec; exact Hn|].
  rewrite fib_prefix_length. split.
  - destruct (Z.eqb_spec n 0); lia.
  - intros i Hi. apply fib_prefix_lookup. exact Hi.
Qed.

Lemma fib_by_dp_prefix_witness :
  0 <= 4 /\
  exists l : list Z,
    fib_by_dp 4 = Return l /\
    Z.of_nat (length l) = (if 4 =? 0 then 2 else 4 + 1) /\
    forall i : nat, (i < length l)%nat -> l !! i = Some (fib i).
Proof.
  split; [lia|]. apply (fib_by_dp_prefix 4). lia.
Defined.

(** C9: for n = 0 and n = 1, fib_by_dp(n) returns the two-element list
    [0, 1]; for every non-negative n its result has length max(n+1, 2). *)
Theorem fib_by_dp_seed :
  fib_by_dp 0 = Return [0; 1] /\
  fib_by_dp 1 = Return [0; 1] /\
  forall n : Z,
    0 <= n ->
    exists l : list Z,
      fib_by_dp n = Return l /\ Z.of_nat (length l) = Z.max (n + 1) 2.
Proof.
  split; [reflexivity|]. split; [reflexivity|].
  intros n Hn. eexists. split; [apply fib_by_dp_spec; exact Hn|].
  rewrite fib_prefix_length. lia.
Qed.

Lemma fib_by_dp_seed_witness :
  0 <= 6 /\
  exists l : list Z,
    fib_by_dp 6 = Return l /\ Z.of_nat (length l) = Z.max (6 + 1) 2.
Proof.
  split; [lia|]. apply (proj2 (proj2 fib_by_dp_seed) 6). lia.
Defined.

Lemma valid_calls_results (ns : list Z) :
  Forall (fun n => 0 <= n) ns ->
  map (fun n => if n <? 0 then Raise ValueError else Return (fib (Z.to_nat n))) ns
  = map (fun n => Return (fib (Z.to_nat n))) ns.
Proof.
  induction 1 as [|n ns Hn _ IH]; cbn [map]; [reflexivity|].
  rewrite IH. destruct (Z.ltb_spec n 0); [lia | reflexivity].
Qed.

(** C6: after any sequence [ns1] of fib_by_cache calls with valid arguments,
    the dictionary holds exactly the indices 0..m for some m >= 1, each
    mapped to the Fibonacci number of its index; further calls [ns2] never
    remove or change an entry (the dictionary before is included in the
    dictionary after); every call returns the Fibonacci number of its
    argument, so a later call with a smaller n returns what it returned
    before. *)
Theorem fib_by_cache_grows (ns1 ns2 : list Z) :
  Forall (fun n => 0 <= n) (ns1 ++ ns2) ->
  let d1 := snd (run_calls ns1 initial_cache) in
  let d2 := snd (run_calls (ns1 ++ ns2) initial_cache) in
  (exists m : Z, 1 <= m /\ cache_upto m d1) /\
  d1 ⊆ d2 /\
  fst (run_calls (ns1 ++ ns2) initial_cache)
  = map (fun n => Return (fib (Z.to_nat n))) (ns1 ++ ns2) /\
  forall n : Z, 0 <= n -> fst (fib_by_cache n d2) = fst (fib_by_cache n d1).
Proof.
  intros Hvalid d1 d2. subst d1 d2.
  rewrite run_calls_app, initial_cache_fib_map.
  destruct (run_calls_spec ns1 1 (le_n 1)) as (m1 & Hm1 & E1). rewrite E1.
  destruct (run_calls_spec ns2 m1 ltac:(lia)) as (m2 & Hm2 & E2). rewrite E2.
  cbn [fst snd].
  split; [|split; [|split]].
  - exists (Z.of_nat m1). split; [lia | apply fib_map_lookup].
  - apply fib_map_mono. exact Hm2.
  - rewrite <- map_app. apply valid_calls_results. exact Hvalid.
  - intros n Hn. rewrite !fib_by_cache_spec by lia. reflexivity.
Qed.

Lemma fib_by_cache_grows_witness :
  Forall (fun n => 0 <= n) ([9; 4] ++ [2; 12]) /\
  let d1 := snd (run_calls [9; 4] initial_cache) in
  let d2 := snd (run_calls ([9; 4] ++ [2; 12]) initial_cache) in
  (exists m : Z, 1 <= m /\ cache_upto m d1) /\
  d1 ⊆ d2 /\
  fst (run_calls ([9; 4] ++ [2; 12]) initial_cache)
  = map (fun n => Return (fib (Z.to_nat n))) ([9; 4] ++ [2; 12]) /\
  forall n : Z, 0 <= n -> fst (fib_by_cache n d2) = fst (fib_by_cache n d1).
Proof.
  assert (H : Forall (fun n => 0 <= n) ([9; 4] ++ [2; 12]))
    by (repeat constructor; lia).
  split; [exact H|]. apply (fib_by_cache_grows [9; 4] [2; 12] H).
Defined.

(** C10: called with a negative n, fib_by_cache raises before it reads or
    writes the dictionary: whatever the dictionary holds (even one on which
    a read would fail), the call raises [ValueError] and the dictionary after
    the call is the dictionary before it. *)
Theorem fib_by_cache_rejects_first (n : Z) (d : gmap Z Z) :
  n < 0 -> fib_by_cache n d = (Raise ValueError, d).
Proof.
  intros H. unfold fib_by_cache, cache_for_fib, fib_by_cache_func. cbn [snd].
  rewrite (proj2 (Z.ltb_lt n 0) H). reflexivity.
Qed.

Lemma fib_by_cache_rejects_first_witness :
  -1 < 0 /\ fib_by_cache (-1) ∅ = (Raise ValueError, ∅).
Proof.
  split; [lia|]. apply (fib_by_cache_rejects_first (-1) ∅). lia.
Defined.

(** ** Proofs: the lattice estimator *)

Lemma sfor_loop_computes {S A : Type} (body : A -> Z -> M S A) (f : A -> Z -> A)
    (l : list Z) (acc : A) (s : S) :
  (forall a i s', body a i s' = (Return (f a i), s')) ->
  sfor_loop body l acc s = (Return (fold_left f l acc), s).
Proof.
  intros Hbody. revert acc; induction l as [|i l IH]; intros acc.
  - reflexivity.
  - cbn [sfor_loop fold_left]. unfold sbind. rewrite Hbody. apply IH.
Qed.

Lemma count_column (P : Z -> bool) (ys : list Z) (c : Z) :
  fold_left (fun c y => if P y then c + 1 else c) ys c
  = c + Z.of_nat (length (List.filter P ys)).
Proof.
  revert c; induction ys as [|y ys IH]; intros c; cbn [fold_left List.filter].
  - cbn [length]. lia.
  - rewrite IH. destruct (P y); cbn [length]; lia.
Qed.

Lemma filter_pair_length (P : Z * Z -> bool) (x : Z) (ys : list Z) :
  length (List.filter P (map (pair x) ys))
  = length (List.filter (fun y => P (x, y)) ys).
Proof.
  induction ys as [|y ys IH]; cbn [map List.filter]; [reflexivity|].
  destruct (P (x, y)); cbn [length]; rewrite IH; reflexivity.
Qed.

Lemma count_grid (P : Z * Z -> bool) (xs ys : list Z) (c : Z) :
  fold_left
    (fun c x => fold_left (fun c y => if P (x, y) then c + 1 else c) ys c) xs c
  = c + Z.of_nat (length (List.filter P (list_prod xs ys))).
Proof.
  revert c; induction xs as [|x xs IH]; intros c; cbn [fold_left list_prod].
  - cbn [List.filter length]. lia.
  - rewrite IH, (count_column (fun y => P (x, y))).
    rewrite List.filter_app, length_app, filter_pair_length. lia.
Qed.

Lemma pi_simulation_negative {rng : Type} (n : Z) (g : rng) :
  n < 0 -> pi_simulation n g = (Raise ValueError, g).
Proof.
  intros H. unfold pi_simulation.
  rewrite (proj2 (Z.ltb_lt n 0) H). reflexivity.
Qed.

Lemma pi_simulation_spec {rng : Type} (n : Z) (g : rng) :
  0 <= n ->
  pi_simulation n g
  = ((den <- float_of_int ((n + 1) ^ 2) ;;
      int_div_float (4 * lattice_count n) den)%result, g).
Proof.
  intros Hn. unfold pi_simulation.
  destruct (Z.ltb_spec n 0); [lia|].
  unfold sbind at 1.
  rewrite (sfor_loop_computes _
             (fun c x =>
                fold_left
                  (fun c y => if x ^ 2 + y ^ 2 <=? n ^ 2 then c + 1 else c)
                  (range 0 (n + 1)) c)).
  2:{ intros a i s'.
      apply (sfor_loop_computes _
               (fun c y => if i ^ 2 + y ^ 2 <=? n ^ 2 then c + 1 else c)).
      intros c y s''. destruct (i ^ 2 + y ^ 2 <=? n ^ 2); reflexivity. }
  rewrite (count_grid (fun p => fst p ^ 2 + snd p ^ 2 <=? n ^ 2)).
  change (0 + ?z) with z.
  fold (lattice_points n). fold (lattice_count n).
  unfold sbind, lift.
  destruct (float_of_int ((n + 1) ^ 2)) as [den|e]; reflexivity.
Qed.

(** The list [lattice_points n] enumerates the lattice points of the quarter
    disk once each, so [lattice_count n] is their number. *)
Lemma lattice_points_spec (n x y : Z) :
  In (x, y) (lattice_points n)
  <-> 0 <= x <= n /\ 0 <= y <= n /\ x ^ 2 + y ^ 2 <= n ^ 2.
Proof.
  unfold lattice_points.
  rewrite List.filter_In, in_prod_iff, <- !list_elem_of_In, !elem_of_range.
  cbn [fst snd]. rewrite Z.leb_le. lia.
Qed.

Lemma NoDup_list_prod (xs ys : list Z) :
  NoDup xs -> NoDup ys -> NoDup (list_prod xs ys).
Proof.
  intros Hxs Hys. induction Hxs as [|x xs Hx Hxs IH]; cbn [list_prod].
  - constructor.
  - apply NoDup_app. split; [|split].
    + apply (NoDup_fmap_2 (pair x)). exact Hys.
    + intros [x' y'] Hin Hin'.
      apply list_elem_of_In, in_map_iff in Hin. destruct Hin as (y & E & _).
      injection E as <- <-.
      apply list_elem_of_In, in_prod_iff in Hin'. destruct Hin' as [Hin' _].
      apply Hx, list_elem_of_In, Hin'.
    + exact IH.
Qed.

Lemma lattice_points_NoDup (n : Z) : NoDup (lattice_points n).
Proof.
  unfold lattice_points. apply NoDup_ListNoDup, List.NoDup_filter, NoDup_ListNoDup.
  apply NoDup_list_prod; apply NoDup_range.
Qed.

(** ** The claims on the lattice estimator *)

(** C5: for every non-negative n, pi_simulation(n) equals 4 times the count
    of integer lattice points (x, y) with 0 <= x, y <= n and
    x^2 + y^2 <= n^2, divided by (n+1)^2.  The division is the script's
    float division of the two integers; [lattice_points n] lists each such
    point once. *)
Theorem pi_simulation_counts_lattice_points (rng : Type) (n : Z) (g : rng) :
  0 <= n ->
  pi_simulation n g
  = ((den <- float_of_int ((n + 1) ^ 2) ;;
      int_div_float (4 * lattice_count n) den)%result, g) /\
  lattice_count n = Z.of_nat (length (lattice_points n)) /\
  NoDup (lattice_points n) /\
  forall x y : Z,
    In (x, y) (lattice_points n)
    <-> 0 <= x <= n /\ 0 <= y <= n /\ x ^ 2 + y ^ 2 <= n ^ 2.
Proof.
  intros Hn. split; [apply pi_simulation_spec; exact Hn|].
  split; [reflexivity|].
  split; [apply lattice_points_NoDup|].
  intros x y. apply lattice_points_spec.
Qed.

Lemma pi_simulation_counts_lattice_points_witness :
  0 <= 10 /\
  pi_simulation 10 tt
  = ((den <- float_of_int ((10 + 1) ^ 2) ;;
      int_div_float (4 * lattice_count 10) den)%result, tt) /\
  lattice_count 10 = Z.of_nat (length (lattice_points 10)) /\
  NoDup (lattice_points 10) /\
  forall x y : Z,
    In (x, y) (lattice_points 10)
    <-> 0 <= x <= 10 /\ 0 <= y <= 10 /\ x ^ 2 + y ^ 2 <= 10 ^ 2.
Proof.
  split; [lia|]. apply (pi_simulation_counts_lattice_points unit 10 tt). lia.
Defined.

(** Two runs of the script's own examples: 3 points out of 4 at n = 1, and
    90 out of 121 at n = 10. *)
Example pi_simulation_1 :
  lattice_count 1 = 3 /\
  fst (pi_simulation 1 tt) = Return (S754_finite false (3 * 2 ^ 51) (-51)).
Proof. split; reflexivity. Qed.

Example pi_simulation_10 :
  lattice_count 10 = 90 /\
  fst (pi_simulation 10 tt) = Return (SFdiv prec emax
                                        (binary_normalize prec emax 360 0 false)
                                        (binary_normalize prec emax 121 0 false)).
Proof. split; reflexivity. Qed.

(** C7: pi_simulation is deterministic: two calls with the same n produce
    identical output, whatever state the random generator is in at each
    call (and whichever generator it is); the call leaves that state as it
    found it. *)
Theorem pi_simulation_deterministic (rng1 rng2 : Type) (n : Z) (g1 : rng1) (g2 : rng2) :
  fst (pi_simulation n g1) = fst (pi_simulation n g2) /\
  snd (pi_simulation n g1) = g1.
Proof.
  destruct (Z_lt_dec n 0) as [Hneg|Hpos].
  - rewrite !pi_simulation_negative by exact Hneg. split; reflexivity.
  - rewrite !pi_simulation_spec by lia. split; reflexivity.
Qed.

(** The Monte Carlo estimator, by contrast, answers according to the
    generator's state. *)
Lemma pi_simulation_by_random_depends_on_state :
  fst (pi_simulation_by_random pow_reference lcg_random 50 1)
  <> fst (pi_simulation_by_random pow_reference lcg_random 50 2).
Proof. vm_compute. discriminate. Qed.

(** ** The Monte Carlo estimator at zero *)

(** C4 fails at [n = 0]: no sample is drawn, the count stays 0, and the
    final division by [float(0)] raises [ZeroDivisionError]; the guard
    [n < 0] lets zero through although its message asks for a positive n. *)
Theorem pi_simulation_by_random_zero
    (float_pow : float -> Z -> result float)
    (rng : Type) (random_random : rng -> float * rng) (g : rng) :
  pi_simulation_by_random float_pow random_random 0 g = (Raise ZeroDivisionError, g).
Proof. reflexivity. Qed.

(** ** Proofs: floats *)

Lemma float_of_int_raises (k : Z) (e : exn) :
  float_of_int k = Raise e -> e = OverflowError.
Proof.
  unfold float_of_int.
  destruct (binary_normalize prec emax k 0 false); intros H; congruence.
Qed.

Lemma float_div_raises (a b : float) (e : exn) :
  float_div a b = Raise e -> e = ZeroDivisionError.
Proof.
  unfold float_div. destruct (float_is_zero b); intros H; congruence.
Qed.

Lemma int_div_float_raises (k : Z) (b : float) (e : exn) :
  int_div_float k b = Raise e -> e = OverflowError \/ e = ZeroDivisionError.
Proof.
  unfold int_div_float, bind.
  destruct (float_of_int k) as [a|e'] eqn:E.
  - intros H. right. exact (float_div_raises _ _ _ H).
  - intros [= <-]. left. exact (float_of_int_raises _ _ E).
Qed.

(** Shifting a non-negative mantissa right keeps it non-negative, so
    rounding never produces the NaN that stands for a negative mantissa. *)
Lemma shr_1_nonneg (mrs : shr_record) : 0 <= shr_m mrs -> 0 <= shr_m (shr_1 mrs).
Proof.
  destruct mrs as [m r s]. cbn [shr_m]. intros Hm.
  destruct m as [|p|p]; [cbn; lia| |lia].
  destruct p; cbn; lia.
Qed.

Lemma iter_pos_shr_1_nonneg (p : positive) (mrs : shr_record) :
  0 <= shr_m mrs -> 0 <= shr_m (SpecFloat.iter_pos shr_1 p mrs).
Proof.
  revert mrs; induction p as [p IH|p IH|]; intros mrs H; cbn [SpecFloat.iter_pos].
  - apply IH, IH, shr_1_nonneg, H.
  - apply IH, IH, H.
  - apply shr_1_nonneg, H.
Qed.

Lemma shr_fexp_nonneg (m e : Z) (l : location) :
  0 <= m -> 0 <= shr_m (fst (shr_fexp prec emax m e l)).
Proof.
  intros Hm. unfold shr_fexp, shr.
  assert (H0 : 0 <= shr_m (shr_record_of_loc m l)).
  { destruct l as [|[]]; exact Hm. }
  destruct (fexp prec emax (Zdigits2 m + e) - e); cbn [fst]; try exact H0.
  apply iter_pos_shr_1_nonneg, H0.
Qed.

Lemma round_nearest_even_nonneg (m : Z) (l : location) :
  0 <= m -> 0 <= round_nearest_even m l.
Proof.
  intros Hm. unfold round_nearest_even.
  destruct l as [|[]]; try lia. destruct (Z.even m); lia.
Qed.

Lemma binary_round_aux_not_nan (s : bool) (m e : Z) (l : location) :
  0 <= m -> binary_round_aux prec emax s m e l <> S754_nan.
Proof.
  intros Hm. unfold binary_round_aux.
  pose proof (shr_fexp_nonneg m e l Hm) as H1.
  destruct (shr_fexp prec emax m e l) as [mrs' e']. cbn [fst] in H1.
  pose proof (shr_fexp_nonneg _ e' loc_Exact
                (round_nearest_even_nonneg _ (loc_of_shr_record mrs') H1)) as H2.
  destruct (shr_fexp prec emax
              (round_nearest_even (shr_m mrs') (loc_of_shr_record mrs')) e' loc_Exact)
    as [mrs'' e'']. cbn [fst] in H2.
  destruct (shr_m mrs'') as [|p|p]; [discriminate| |lia].
  destruct (e'' <=? emax - prec); discriminate.
Qed.

Lemma binary_normalize_not_nan (m e : Z) (s : bool) :
  binary_normalize prec emax m e s <> S754_nan.
Proof.
  unfold binary_normalize, binary_round.
  destruct m as [|p|p]; [discriminate| |].
  - destruct (shl_align p e _) as [mz ez]. apply binary_round_aux_not_nan. lia.
  - destruct (shl_align p e _) as [mz ez]. apply binary_round_aux_not_nan. lia.
Qed.

Lemma float_sub_not_nan (a b : float) :
  float_is_finite a = true -> float_is_finite b = true -> float_sub a b <> S754_nan.
Proof.
  unfold float_sub, SFsub.
  destruct a as [sa|sa| |sa ma ea], b as [sb|sb| |sb mb eb];
    cbn [float_is_finite]; try discriminate; intros _ _.
  - destruct sa, sb; discriminate.
  - apply binary_normalize_not_nan.
Qed.

Lemma float_div_not_nan (a b q : float) :
  a <> S754_nan -> float_is_finite b = true ->
  float_div a b = Return q -> q <> S754_nan.
Proof.
  unfold float_div.
  destruct b as [sb|sb| |sb mb eb]; cbn [float_is_finite float_is_zero];
    try discriminate.
  intros Ha _ [= <-]. unfold SFdiv.
  destruct a as [sa|sa| |sa ma ea]; try discriminate; [congruence|].
  unfold SFdiv_core_binary.
  set (m' := match _ - _ - _ with Z0 => Z.pos ma | Z.pos _ => _ | Z.neg _ => 0 end).
  assert (Hm' : 0 <= m').
  { subst m'. destruct (_ - _ - _); [lia| |lia].
    rewrite Z.shiftl_mul_pow2 by lia. apply Z.mul_nonneg_nonneg; [lia|].
    apply Z.pow_nonneg. lia. }
  pose proof (Z_div_mod m' (Z.pos mb) ltac:(lia)) as Hdm.
  destruct (Z.div_eucl m' (Z.pos mb)) as [qz rz].
  apply binary_round_aux_not_nan. nia.
Qed.

Lemma round_float_not_nan (x : float) : x <> S754_nan -> round_float x <> S754_nan.
Proof.
  intros Hx. unfold round_float. destruct x as [s|s| |s m e]; try exact Hx.
  destruct (0 <=? e); [discriminate|]. apply binary_normalize_not_nan.
Qed.

Lemma int_of_float_raises (x : float) :
  x <> S754_nan -> int_of_float x <> Raise ValueError.
Proof.
  intros Hx. destruct x; cbn [int_of_float]; congruence.
Qed.

(** ** Proofs: the reference power *)

Lemma check_range_raises (f : float) (e : exn) :
  check_range f = Raise e -> e = OverflowError.
Proof. destruct f; cbn [check_range]; congruence. Qed.

Lemma check_range_finite (f r : float) :
  f <> S754_nan -> check_range f = Return r -> float_is_finite r = true.
Proof.
  intros Hf. destruct f; cbn [check_range]; intros [= <-];
    try reflexivity; congruence.
Qed.

Lemma pow_reference_raises : pow_raises_overflow_only pow_reference.
Proof.
  intros x k e Hk. unfold pow_reference.
  destruct (Z.eqb_spec k 0); [discriminate|].
  destruct (Z.ltb_spec 0 k); [|lia].
  destruct x; try discriminate. apply check_range_raises.
Qed.

Lemma pow_reference_finite : pow_stays_finite pow_reference.
Proof.
  intros x k r Hk Hx. unfold pow_reference.
  destruct (Z.eqb_spec k 0); [intros [= <-]; reflexivity|].
  destruct (Z.ltb_spec 0 k); [|lia].
  destruct x; cbn [float_is_finite] in Hx; try discriminate.
  - intros [= <-]. reflexivity.
  - apply check_range_finite, binary_normalize_not_nan.
Qed.

(** ** Proofs: the Binet functions *)

Section Binet.

Variable float_pow : float -> Z -> result float.
Hypothesis pow_raises : pow_raises_overflow_only float_pow.
Hypothesis pow_finite : pow_stays_finite float_pow.

Lemma fib_by_binet_negative (n : Z) :
  n < 0 -> fib_by_binet float_pow n = Raise ValueError.
Proof.
  intros H. unfold fib_by_binet. rewrite (proj2 (Z.ltb_lt n 0) H). reflexivity.
Qed.

Lemma fib_by_binet_approx_negative (n : Z) :
  n < 0 -> fib_by_binet_approx float_pow n = Raise ValueError.
Proof.
  intros H. unfold fib_by_binet_approx.
  rewrite (proj2 (Z.ltb_lt n 0) H). reflexivity.
Qed.

(** The constants of the formula do not depend on [n]. *)
Lemma binet_constants :
  math_sqrt 5 = Return float_sqrt5 /\
  (s <- int_add_float 1 float_sqrt5 ;; float_div_int s 2)%result = Return float_phi /\
  (s <- int_sub_float 1 float_sqrt5 ;; float_div_int s 2)%result = Return float_psi.
Proof. repeat split; reflexivity. Qed.

Lemma fib_by_binet_unfold (n : Z) :
  0 <= n ->
  fib_by_binet float_pow n
  = (phin <- float_pow float_phi n ;;
     psin <- float_pow float_psi n ;;
     q <- float_div (float_sub phin psin) float_sqrt5 ;;
     int_of_float q)%result.
Proof.
  intros Hn. unfold fib_by_binet. destruct (Z.ltb_spec n 0); [lia|].
  destruct binet_constants as (-> & Hphi & Hpsi). cbn [bind].
  destruct (int_add_float 1 float_sqrt5) as [s1|]; [|discriminate].
  cbn [bind] in Hphi |- *. rewrite Hphi. cbn [bind].
  destruct (float_pow float_phi n) as [phin|]; [|reflexivity]. cbn [bind].
  destruct (int_sub_float 1 float_sqrt5) as [s2|]; [|discriminate].
  cbn [bind] in Hpsi |- *. rewrite Hpsi. reflexivity.
Qed.

Lemma fib_by_binet_approx_unfold (n : Z) :
  0 <= n ->
  fib_by_binet_approx float_pow n
  = (phin <- float_pow float_phi n ;;
     q <- float_div phin float_sqrt5 ;;
     int_of_float (round_float q))%result.
Proof.
  intros Hn. unfold fib_by_binet_approx. destruct (Z.ltb_spec n 0); [lia|].
  destruct binet_constants as (-> & Hphi & _). cbn [bind].
  destruct (int_add_float 1 float_sqrt5) as [s1|]; [|discriminate].
  cbn [bind] in Hphi |- *. rewrite Hphi. reflexivity.
Qed.

Lemma fib_by_binet_no_value_error (n : Z) :
  0 <= n -> fib_by_binet float_pow n <> Raise ValueError.
Proof.
  intros Hn. rewrite fib_by_binet_unfold by exact Hn. unfold bind.
  destruct (float_pow float_phi n) as [phin|e] eqn:E1.
  2:{ rewrite (pow_raises _ _ _ Hn E1). discriminate. }
  destruct (float_pow float_psi n) as [psin|e] eqn:E2.
  2:{ rewrite (pow_raises _ _ _ Hn E2). discriminate. }
  destruct (float_div (float_sub phin psin) float_sqrt5) as [q|e] eqn:E3.
  2:{ rewrite (float_div_raises _ _ _ E3). discriminate. }
  apply int_of_float_raises.
  apply (float_div_not_nan (float_sub phin psin) float_sqrt5 q);
    [|reflexivity|exact E3].
  apply float_sub_not_nan.
  - exact (pow_finite float_phi n phin Hn eq_refl E1).
  - exact (pow_finite float_psi n psin Hn eq_refl E2).
Qed.

Lemma fib_by_binet_approx_no_value_error (n : Z) :
  0 <= n -> fib_by_binet_approx float_pow n <> Raise ValueError.
Proof.
  intros Hn. rewrite fib_by_binet_approx_unfold by exact Hn. unfold bind.
  destruct (float_pow float_phi n) as [phin|e] eqn:E1.
  2:{ rewrite (pow_raises _ _ _ Hn E1). discriminate. }
  destruct (float_div phin float_sqrt5) as [q|e] eqn:E3.
  2:{ rewrite (float_div_raises _ _ _ E3). discriminate. }
  apply int_of_float_raises, round_float_not_nan.
  apply (float_div_not_nan phin float_sqrt5 q); [|reflexivity|exact E3].
  pose proof (pow_finite float_phi n phin Hn eq_refl E1) as Hf.
  destruct phin; cbn [float_is_finite] in Hf; congruence.
Qed.

End Binet.

(** ** Proofs: the error contract *)

Lemma sfor_loop_raises {S A : Type} (P : exn -> Prop) (body : A -> Z -> M S A)
    (l : list Z) (acc : A) (s s' : S) (e : exn) :
  (forall a i s0 s1 e0, body a i s0 = (Raise e0, s1) -> P e0) ->
  sfor_loop body l acc s = (Raise e, s') -> P e.
Proof.
  intros Hbody. revert acc s; induction l as [|i l IH]; intros acc s.
  - cbn [sfor_loop]. unfold sret. discriminate.
  - cbn [sfor_loop]. unfold sbind at 1.
    destruct (body acc i s) as [[acc'|e0] s0] eqn:E.
    + apply IH.
    + intros [= <- <-]. exact (Hbody _ _ _ _ _ E).
Qed.

Lemma error_contract_intro {A : Type} (f : Z -> result A) :
  (forall n, n < 0 -> f n = Raise ValueError) ->
  (forall n, 0 <= n -> exists v, f n = Return v) ->
  error_contract f.
Proof.
  intros Hneg Hpos. split.
  - intros n. split; [|apply Hneg].
    intros H. destruct (Z_lt_dec n 0) as [|Hn]; [assumption|].
    destruct (Hpos n ltac:(lia)) as [v Hv]. congruence.
  - intros n e H. destruct (Z_lt_dec n 0) as [Hn|Hn].
    + rewrite (Hneg n Hn) in H. congruence.
    + destruct (Hpos n ltac:(lia)) as [v Hv]. congruence.
Qed.

Lemma raises_iff_negative_intro {A : Type} (f : Z -> result A) :
  (forall n, n < 0 -> f n = Raise ValueError) ->
  (forall n, 0 <= n -> f n <> Raise ValueError) ->
  raises_iff_negative f.
Proof.
  intros Hneg Hpos n. split; [|apply Hneg].
  intros H. destruct (Z_lt_dec n 0) as [|Hn]; [assumption|].
  exfalso. apply (Hpos n); [lia | exact H].
Qed.

Lemma pi_simulation_no_value_error {rng : Type} (n : Z) (g : rng) :
  0 <= n -> fst (pi_simulation n g) <> Raise ValueError.
Proof.
  intros Hn. rewrite pi_simulation_spec by exact Hn. cbn [fst]. unfold bind.
  destruct (float_of_int ((n + 1) ^ 2)) as [den|e] eqn:E.
  - intros H. destruct (int_div_float_raises _ _ _ H); discriminate.
  - rewrite (float_of_int_raises _ _ E). discriminate.
Qed.

Section MonteCarlo.

Variable float_pow : float -> Z -> result float.
Variable rng : Type.
Variable random_random : rng -> float * rng.
Hypothesis pow_raises : pow_raises_overflow_only float_pow.

Lemma pi_simulation_by_random_negative (n : Z) (g : rng) :
  n < 0 ->
  pi_simulation_by_random float_pow random_random n g = (Raise ValueError, g).
Proof.
  intros H. unfold pi_simulation_by_random.
  rewrite (proj2 (Z.ltb_lt n 0) H). reflexivity.
Qed.

Lemma pi_simulation_by_random_no_value_error (n : Z) (g : rng) :
  0 <= n ->
  fst (pi_simulation_by_random float_pow random_random n g) <> Raise ValueError.
Proof.
  intros Hn. unfold pi_simulation_by_random.
  destruct (Z.ltb_spec n 0); [lia|].
  unfold sbind at 1.
  match goal with
  | |- context [sfor_loop ?body ?l ?acc g] =>
      destruct (sfor_loop body l acc g) as [[count|e] g'] eqn:Eloop
  end.
  - unfold sbind, lift. cbn [fst].
    destruct (float_of_int n) as [den|e] eqn:E; cbn [fst].
    + intros H'. destruct (int_div_float_raises _ _ _ H'); discriminate.
    + rewrite (float_of_int_raises _ _ E). discriminate.
  - cbn [fst].
    assert (e = OverflowError) as ->; [|discriminate].
    revert Eloop. apply (sfor_loop_raises (fun e0 => e0 = OverflowError)).
    intros a i s0 s1 e0. unfold sbind, lift, sret.
    destruct (random_random s0) as [x s2].
    destruct (random_random s2) as [y s3].
    destruct (float_pow x 2) as [x2|ex] eqn:Ex.
    2:{ intros [= <- <-]. apply (pow_raises x 2); [lia | exact Ex]. }
    destruct (float_pow y 2) as [y2|ey] eqn:Ey.
    2:{ intros [= <- <-]. apply (pow_raises y 2); [lia | exact Ey]. }
    destruct (float_le_int _ _); discriminate.
Qed.

End MonteCarlo.

(** ** Proofs: integers that convert to floats exactly *)

Lemma digits2_pos_lower (p : positive) : 2 ^ (Z.pos (digits2_pos p) - 1) <= Z.pos p.
Proof.
  induction p as [p IH|p IH|]; cbn [digits2_pos].
  - rewrite Pos2Z.inj_succ.
    replace (Z.succ (Z.pos (digits2_pos p)) - 1)
      with (Z.succ (Z.pos (digits2_pos p) - 1)) by lia.
    rewrite Z.pow_succ_r by lia. lia.
  - rewrite Pos2Z.inj_succ.
    replace (Z.succ (Z.pos (digits2_pos p)) - 1)
      with (Z.succ (Z.pos (digits2_pos p) - 1)) by lia.
    rewrite Z.pow_succ_r by lia. lia.
  - cbn. lia.
Qed.

Lemma digits2_pos_upper (p : positive) (n : Z) :
  0 <= n -> Z.pos p < 2 ^ n -> Z.pos (digits2_pos p) <= n.
Proof.
  intros Hn Hp. destruct (Z_le_dec (Z.pos (digits2_pos p)) n) as [|Hgt]; [assumption|].
  pose proof (digits2_pos_lower p) as Hlow.
  assert (2 ^ n <= 2 ^ (Z.pos (digits2_pos p) - 1)) by (apply Z.pow_le_mono_r; lia).
  lia.
Qed.

Lemma digits2_pos_iter_xO (p k : positive) :
  digits2_pos (Pos.iter xO p k) = (digits2_pos p + k)%positive.
Proof.
  induction k as [|k IH] using Pos.peano_ind.
  - cbn. lia.
  - rewrite Pos.iter_succ. cbn [digits2_pos]. rewrite IH. lia.
Qed.

Lemma binary_round_aux_exact (s : bool) (m : positive) (e : Z) :
  fexp prec emax (Z.pos (digits2_pos m) + e) = e ->
  e <= emax - prec ->
  binary_round_aux prec emax s (Z.pos m) e loc_Exact = S754_finite s m e.
Proof.
  intros Hfexp He. unfold binary_round_aux, shr_fexp.
  cbn [Zdigits2 shr_record_of_loc]. rewrite Hfexp, Z.sub_diag.
  cbn [shr shr_m loc_of_shr_record round_nearest_even Zdigits2 shr_record_of_loc].
  rewrite Hfexp, Z.sub_diag. cbn [shr shr_m].
  rewrite (proj2 (Z.leb_le _ _) He). reflexivity.
Qed.

(** A positive integer below [2^53] converts to a finite, non-zero float. *)
Lemma float_of_int_small (k : Z) :
  0 < k < 2 ^ 53 ->
  exists (m : positive) (e : Z), float_of_int k = Return (S754_finite false m e).
Proof.
  intros [Hpos Hlt]. destruct k as [|p|p]; try lia.
  pose proof (digits2_pos_upper p 53 ltac:(lia) Hlt) as Hd.
  unfold float_of_int, binary_normalize, binary_round.
  assert (Hfexp : fexp prec emax (Z.pos (digits2_pos p) + 0)
                  = Z.pos (digits2_pos p) - 53).
  { unfold fexp, emin, prec, emax. lia. }
  rewrite Hfexp. unfold shl_align.
  destruct (Z.pos (digits2_pos p) - 53 - 0) as [|q|q] eqn:Eq; try lia.
  - rewrite binary_round_aux_exact; [eauto| |unfold emax, prec; lia].
    unfold fexp, emin, prec, emax. lia.
  - rewrite binary_round_aux_exact; [eauto| |unfold emax, prec; lia].
    rewrite digits2_pos_iter_xO. unfold fexp, emin, prec, emax. lia.
Qed.

Lemma lattice_count_bound (n : Z) : 0 <= n -> 0 <= lattice_count n <= (n + 1) ^ 2.
Proof.
  intros Hn. unfold lattice_count, lattice_points.
  pose proof (List.filter_length_le
                (fun p : Z * Z => fst p ^ 2 + snd p ^ 2 <=? n ^ 2)
                (list_prod (range 0 (n + 1)) (range 0 (n + 1)))) as H.
  rewrite length_prod, !range_length in H. split; [lia|].
  replace ((n + 1) ^ 2) with (Z.of_nat (Z.to_nat (n + 1 - 0) * Z.to_nat (n + 1 - 0))).
  - lia.
  - rewrite Nat2Z.inj_mul, !Z2Nat.id by lia. ring.
Qed.

(** ** Proofs: rounding beyond the float range *)

Lemma digits2_pos_value_upper (p : positive) : Z.pos p < 2 ^ Z.pos (digits2_pos p).
Proof.
  induction p as [p IH|p IH|]; cbn [digits2_pos].
  - rewrite Pos2Z.inj_succ, Z.pow_succ_r by lia. lia.
  - rewrite Pos2Z.inj_succ, Z.pow_succ_r by lia. lia.
  - cbn. lia.
Qed.

Lemma shr_1_div2 (mrs : shr_record) :
  0 <= shr_m mrs -> shr_m (shr_1 mrs) = shr_m mrs / 2.
Proof.
  destruct mrs as [m r s]. cbn [shr_m]. intros Hm.
  destruct m as [|p|p]; [reflexivity| |lia].
  destruct p as [p|p|]; cbn [shr_1 shr_m].
  - rewrite Pos2Z.inj_xI. apply Z.div_unique with (r := 1); lia.
  - rewrite Pos2Z.inj_xO. apply Z.div_unique with (r := 0); lia.
  - reflexivity.
Qed.

Lemma iter_pos_shr_1_div (q : positive) (mrs : shr_record) :
  0 <= shr_m mrs ->
  shr_m (SpecFloat.iter_pos shr_1 q mrs) = shr_m mrs / 2 ^ Z.pos q.
Proof.
  revert mrs; induction q as [q IH|q IH|]; intros mrs Hm; cbn [SpecFloat.iter_pos].
  - assert (E : 2 ^ Z.pos q~1 = 2 * (2 ^ Z.pos q * 2 ^ Z.pos q)).
    { rewrite Pos2Z.inj_xI, <- Z.pow_add_r, <- Z.pow_succ_r by lia. f_equal. lia. }
    assert (0 < 2 ^ Z.pos q) by (apply Z.pow_pos_nonneg; lia).
    rewrite IH by (apply iter_pos_shr_1_nonneg, shr_1_nonneg, Hm).
    rewrite IH by (apply shr_1_nonneg, Hm).
    rewrite shr_1_div2 by exact Hm.
    rewrite E, !Z.div_div by lia. reflexivity.
  - assert (E : 2 ^ Z.pos q~0 = 2 ^ Z.pos q * 2 ^ Z.pos q).
    { rewrite Pos2Z.inj_xO, <- Z.pow_add_r by lia. f_equal. lia. }
    assert (0 < 2 ^ Z.pos q) by (apply Z.pow_pos_nonneg; lia).
    rewrite IH by (apply iter_pos_shr_1_nonneg, Hm).
    rewrite IH by exact Hm.
    rewrite E, !Z.div_div by lia. reflexivity.
  - rewrite shr_1_div2 by exact Hm. reflexivity.
Qed.

Lemma shr_record_of_loc_m (m : Z) (l : location) : shr_m (shr_record_of_loc m l) = m.
Proof. destruct l as [|[]]; reflexivity. Qed.

(** Shifting a positive mantissa to its 53 leading digits leaves it
    positive, and the exponent does not go down. *)
Lemma shr_fexp_positive (p : positive) (e : Z) (l : location) :
  emin prec emax <= Z.pos (digits2_pos p) + e - prec ->
  exists (mrs : shr_record) (e' : Z),
    shr_fexp prec emax (Z.pos p) e l = (mrs, e') /\
    0 < shr_m mrs /\ e <= e' /\ Z.pos (digits2_pos p) + e - prec <= e'.
Proof.
  intros Hmin. unfold shr_fexp, shr. cbn [Zdigits2].
  assert (Hfexp : fexp prec emax (Z.pos (digits2_pos p) + e)
                  = Z.pos (digits2_pos p) + e - prec) by (unfold fexp; lia).
  rewrite Hfexp.
  destruct (Z.pos (digits2_pos p) + e - prec - e) as [|q|q] eqn:En.
  - eexists _, _. split; [reflexivity|]. rewrite shr_record_of_loc_m. lia.
  - eexists _, _. split; [reflexivity|].
    rewrite iter_pos_shr_1_div by (rewrite shr_record_of_loc_m; lia).
    rewrite shr_record_of_loc_m. split; [|lia].
    apply Z.div_str_pos. split; [apply Z.pow_pos_nonneg; lia|].
    pose proof (digits2_pos_lower p) as Hlow.
    assert (2 ^ Z.pos q <= 2 ^ (Z.pos (digits2_pos p) - 1))
      by (apply Z.pow_le_mono_r; unfold prec in En; lia).
    lia.
  - eexists _, _. split; [reflexivity|]. rewrite shr_record_of_loc_m. lia.
Qed.

Lemma round_nearest_even_ge (m : Z) (l : location) : m <= round_nearest_even m l.
Proof.
  unfold round_nearest_even. destruct l as [|[]]; try lia.
  destruct (Z.even m); lia.
Qed.

Lemma binary_round_aux_overflow (s : bool) (p : positive) (e : Z) :
  emax + 1 <= Z.pos (digits2_pos p) + e ->
  binary_round_aux prec emax s (Z.pos p) e loc_Exact = S754_infinity s.
Proof.
  intros Hbig. unfold binary_round_aux.
  destruct (shr_fexp_positive p e loc_Exact) as (mrs' & e' & -> & Hm' & He' & He'').
  { unfold emin, prec, emax in *. lia. }
  pose proof (round_nearest_even_ge (shr_m mrs') (loc_of_shr_record mrs')) as Hge.
  destruct (round_nearest_even (shr_m mrs') (loc_of_shr_record mrs'))
    as [|p1|p1]; try lia.
  destruct (shr_fexp_positive p1 e' loc_Exact) as (mrs'' & e'' & -> & Hm'' & He1 & _).
  { pose proof (Pos2Z.is_pos (digits2_pos p1)).
    unfold emin, prec, emax in *. lia. }
  destruct (shr_m mrs'') as [|p2|p2]; try lia.
  destruct (Z.leb_spec e'' (emax - prec)); [|reflexivity].
  unfold prec, emax in *. lia.
Qed.

(** A positive number of [2^1024] or more rounds to infinity. *)
Lemma binary_normalize_overflow (p : positive) (e : Z) :
  emax + 1 <= Z.pos (digits2_pos p) + e ->
  binary_normalize prec emax (Z.pos p) e false = S754_infinity false.
Proof.
  intros Hbig. unfold binary_normalize, binary_round, shl_align.
  destruct (fexp prec emax (Z.pos (digits2_pos p) + e) - e) as [|q|q] eqn:En.
  - apply binary_round_aux_overflow, Hbig.
  - apply binary_round_aux_overflow, Hbig.
  - apply binary_round_aux_overflow. rewrite digits2_pos_iter_xO.
    unfold fexp, emin, prec, emax in *. lia.
Qed.

(** The golden ratio to an even power [2 j] with [j >= 1025] is beyond the
    float range: its square is already more than 2. *)
Lemma pow_reference_phi_overflow (j : Z) :
  1025 <= j -> pow_reference float_phi (2 * j) = Raise OverflowError.
Proof.
  intros Hj. unfold pow_reference, float_phi.
  destruct (Z.eqb_spec (2 * j) 0); [lia|].
  destruct (Z.ltb_spec 0 (2 * j)); [|lia].
  cbn [andb cond_Zopp].
  assert (Hlow : 2 ^ (105 * j) <= Z.pos 7286977268806824 ^ (2 * j)).
  { rewrite !Z.pow_mul_r by lia. apply Z.pow_le_mono_l.
    split; [apply Z.pow_nonneg; lia|]. vm_compute. discriminate. }
  assert (Hpos : 0 < 2 ^ (105 * j)) by (apply Z.pow_pos_nonneg; lia).
  destruct (Z.pos 7286977268806824 ^ (2 * j)) as [|p|p]; try lia.
  rewrite binary_normalize_overflow; [reflexivity|].
  pose proof (digits2_pos_value_upper p) as Hup.
  assert (105 * j < Z.pos (digits2_pos p)).
  { apply (Z.pow_lt_mono_r_iff 2); lia. }
  unfold emax. lia.
Qed.

Lemma fib_by_binet_overflow (j : Z) :
  1025 <= j -> fib_by_binet pow_reference (2 * j) = Raise OverflowError.
Proof.
  intros Hj. rewrite fib_by_binet_unfold by lia.
  rewrite pow_reference_phi_overflow by exact Hj. reflexivity.
Qed.

(** ** Proofs: bounds on the lattice count *)

Lemma filter_all (P : Z -> bool) (l : list Z) :
  (forall y, In y l -> P y = true) -> List.filter P l = l.
Proof.
  induction l as [|y l IH]; intros H; cbn [List.filter]; [reflexivity|].
  rewrite (H y (or_introl eq_refl)), IH; [reflexivity|].
  intros z Hz. apply H. right. exact Hz.
Qed.

(** Row [x] of the grid holds at least the [n - x + 1] points under the
    diagonal [x + y <= n]. *)
Lemma lattice_row_bound (n x : Z) :
  0 <= x <= n ->
  n - x + 1
  <= Z.of_nat (length (List.filter (fun y => x ^ 2 + y ^ 2 <=? n ^ 2) (range 0 (n + 1)))).
Proof.
  intros Hx.
  assert (Hsplit : range 0 (n + 1) = range 0 (n - x + 1) ++ range (n - x + 1) (n + 1)).
  { unfold range. replace (n + 1 - 0) with ((n - x + 1 - 0) + (n + 1 - (n - x + 1))) by lia.
    rewrite seqZ_app by lia. do 2 f_equal; lia. }
  rewrite Hsplit, List.filter_app, length_app, filter_all.
  - rewrite range_length. lia.
  - intros y Hy. apply list_elem_of_In, elem_of_range in Hy. apply Z.leb_le. nia.
Qed.

Lemma lattice_rows_bound (n : Z) (k : nat) (a c : Z) :
  0 <= a -> a + Z.of_nat k = n + 1 ->
  2 * c + Z.of_nat k * (Z.of_nat k + 1)
  <= 2 * fold_left
           (fun c x =>
              fold_left (fun c y => if x ^ 2 + y ^ 2 <=? n ^ 2 then c + 1 else c)
                (range 0 (n + 1)) c)
           (range a (n + 1)) c.
Proof.
  revert a c; induction k as [|k IH]; intros a c Ha Hk.
  - rewrite (range_nil a (n + 1)) by lia. cbn [fold_left]. lia.
  - rewrite (range_cons a (n + 1)) by lia. cbn [fold_left].
    rewrite (count_column (fun y => a ^ 2 + y ^ 2 <=? n ^ 2)).
    pose proof (lattice_row_bound n a ltac:(lia)) as Hrow.
    specialize (IH (a + 1)
                  (c + Z.of_nat (length (List.filter (fun y => a ^ 2 + y ^ 2 <=? n ^ 2)
                                           (range 0 (n + 1)))))
                  ltac:(lia) ltac:(lia)).
    nia.
Qed.

Lemma filter_length_lt {A : Type} (P : A -> bool) (a : A) (l : list A) :
  In a l -> P a = false -> (length (List.filter P l) < length l)%nat.
Proof.
  induction l as [|b l IH]; intros Hin Hp; [destruct Hin|].
  cbn [List.filter length]. pose proof (List.filter_length_le P l) as Hle.
  destruct Hin as [->|Hin].
  - rewrite Hp. lia.
  - specialize (IH Hin Hp). destruct (P b); cbn [length]; lia.
Qed.

Lemma lattice_count_bounds (n : Z) :
  1 <= n -> (n + 1) * (n + 2) <= 2 * lattice_count n /\ lattice_count n < (n + 1) ^ 2.
Proof.
  intros Hn. split.
  - pose proof (lattice_rows_bound n (Z.to_nat (n + 1)) 0 0 ltac:(lia) ltac:(lia)) as H.
    rewrite (count_grid (fun p => fst p ^ 2 + snd p ^ 2 <=? n ^ 2)) in H.
    unfold lattice_count, lattice_points. cbn [fst snd] in H. nia.
  - unfold lattice_count, lattice_points.
    pose proof (filter_length_lt (fun p : Z * Z => fst p ^ 2 + snd p ^ 2 <=? n ^ 2)
                  (n, n) (list_prod (range 0 (n + 1)) (range 0 (n + 1)))) as H.
    rewrite length_prod, !range_length in H.
    assert (Hin : In (n, n) (list_prod (range 0 (n + 1)) (range 0 (n + 1))))
      by (apply in_prod; apply list_elem_of_In, elem_of_range; lia).
    assert (Hout : (fst (n, n) ^ 2 + snd (n, n) ^ 2 <=? n ^ 2) = false)
      by (cbn [fst snd]; apply Z.leb_gt; nia).
    pose proof (H Hin Hout) as Hlt.
    apply Nat2Z.inj_lt in Hlt. rewrite Nat2Z.inj_mul, !Z2Nat.id in Hlt by lia. nia.
Qed.

(** ** Proofs: which integers convert to a float *)

Lemma iter_pos_nat {A : Type} (f : A -> A) (q : positive) (x : A) :
  SpecFloat.iter_pos f q x = Nat.iter (Pos.to_nat q) f x.
Proof.
  revert x; induction q as [q IH|q IH|]; intros x; cbn [SpecFloat.iter_pos].
  - rewrite !IH, Pos2Nat.inj_xI, <- Nat.iter_add, <- Nat.iter_succ_r.
    f_equal. lia.
  - rewrite !IH, Pos2Nat.inj_xO, <- Nat.iter_add. f_equal. lia.
  - reflexivity.
Qed.

Lemma iter_shr_1_m (j : nat) (mrs : shr_record) :
  0 <= shr_m mrs ->
  shr_m (Nat.iter j shr_1 mrs) = shr_m mrs / 2 ^ Z.of_nat j.
Proof.
  intros Hm. induction j as [|j IH].
  - change (Nat.iter 0 shr_1 mrs) with mrs. change (2 ^ Z.of_nat 0) with 1.
    rewrite Z.div_1_r. reflexivity.
  - rewrite Nat.iter_succ.
    assert (0 < 2 ^ Z.of_nat j) by (apply Z.pow_pos_nonneg; lia).
    rewrite shr_1_div2 by (rewrite IH; apply Z.div_pos; lia).
    rewrite IH, Z.div_div, Nat2Z.inj_succ, Z.pow_succ_r by lia.
    f_equal. lia.
Qed.

Lemma shr_1_r (mrs : shr_record) :
  0 <= shr_m mrs -> shr_r (shr_1 mrs) = Z.odd (shr_m mrs).
Proof.
  destruct mrs as [m r s]. cbn [shr_m]. intros Hm.
  destruct m as [|p|p]; [reflexivity| |lia]. destruct p; reflexivity.
Qed.

(** After [q] shifts the round bit is the last digit shifted out. *)
Lemma iter_pos_shr_1_r (q : positive) (mrs : shr_record) :
  0 <= shr_m mrs ->
  shr_r (SpecFloat.iter_pos shr_1 q mrs) = Z.odd (shr_m mrs / 2 ^ (Z.pos q - 1)).
Proof.
  intros Hm. rewrite iter_pos_nat.
  destruct (Pos2Nat.is_succ q) as [j Hj]. rewrite Hj, Nat.iter_succ.
  assert (0 < 2 ^ Z.of_nat j) by (apply Z.pow_pos_nonneg; lia).
  rewrite shr_1_r by (rewrite iter_shr_1_m by exact Hm; apply Z.div_pos; lia).
  rewrite iter_shr_1_m by exact Hm. do 3 f_equal. lia.
Qed.

Lemma digits2_pos_53 (p : positive) :
  2 ^ 52 <= Z.pos p < 2 ^ 53 -> Z.pos (digits2_pos p) = 53.
Proof.
  intros [Hlow Hup].
  pose proof (digits2_pos_upper p 53 ltac:(lia) Hup) as H1.
  pose proof (digits2_pos_value_upper p) as H2.
  assert (52 < Z.pos (digits2_pos p)); [|lia].
  apply (Z.pow_lt_mono_r_iff 2); lia.
Qed.

(** A mantissa of 53 digits stays as it is; [2^53], which rounding up can
    reach, is shifted once more. *)
Lemma shr_fexp_settled (m e : Z) :
  2 ^ 52 <= m <= 2 ^ 53 -> emin prec emax <= e ->
  shr_fexp prec emax m e loc_Exact
  = if m =? 2 ^ 53
    then ({| shr_m := 2 ^ 52; shr_r := false; shr_s := false |}, e + 1)
    else ({| shr_m := m; shr_r := false; shr_s := false |}, e).
Proof.
  intros Hm He. unfold shr_fexp. destruct (Z.eqb_spec m (2 ^ 53)) as [->|Hne].
  - change (Zdigits2 (2 ^ 53)) with 54.
    replace (fexp prec emax (54 + e) - e) with 1 by (unfold fexp, prec in *; lia).
    reflexivity.
  - destruct m as [|p|p]; try lia. cbn [Zdigits2].
    rewrite digits2_pos_53 by lia.
    replace (fexp prec emax (53 + e) - e) with 0 by (unfold fexp, prec in *; lia).
    reflexivity.
Qed.

(** Rounding to nearest, ties to even, seen from the round bit. *)
Lemma round_nearest_even_cases (mrs : shr_record) :
  (shr_r mrs = false ->
   round_nearest_even (shr_m mrs) (loc_of_shr_record mrs) = shr_m mrs) /\
  (shr_r mrs = true -> Z.odd (shr_m mrs) = true ->
   round_nearest_even (shr_m mrs) (loc_of_shr_record mrs) = shr_m mrs + 1) /\
  shr_m mrs <= round_nearest_even (shr_m mrs) (loc_of_shr_record mrs) <= shr_m mrs + 1.
Proof.
  destruct mrs as [m [|] [|]]; cbn [shr_m shr_r loc_of_shr_record round_nearest_even];
    rewrite <- ?Z.negb_odd; repeat split; try discriminate; try lia;
    try (intros _ ->; reflexivity); destruct (Z.odd m); cbn [negb]; lia.
Qed.

(** The conversion of an integer of 54 digits or more: [q] digits are
    shifted out, the mantissa left is rounded by the round bit, and the
    result goes one exponent up when rounding carries into a 54th digit. *)
Lemma binary_normalize_shifted (p : positive) (q : Z) :
  q = Z.pos (digits2_pos p) - 53 -> 1 <= q ->
  exists mrs : shr_record,
    shr_m mrs = Z.pos p / 2 ^ q /\
    shr_r mrs = Z.odd (Z.pos p / 2 ^ (q - 1)) /\
    2 ^ 52 <= shr_m mrs < 2 ^ 53 /\
    binary_normalize prec emax (Z.pos p) 0 false
    = let m := round_nearest_even (shr_m mrs) (loc_of_shr_record mrs) in
      if m =? 2 ^ 53
      then if q + 1 <=? emax - prec then S754_finite false (2 ^ 52) (q + 1)
           else S754_infinity false
      else if q <=? emax - prec then S754_finite false (Z.to_pos m) q
           else S754_infinity false.
Proof.
  intros Hq Hq1.
  pose proof (digits2_pos_lower p) as Hlow.
  pose proof (digits2_pos_value_upper p) as Hup.
  assert (Hpow : 0 < 2 ^ q) by (apply Z.pow_pos_nonneg; lia).
  assert (Hm : 2 ^ 52 <= Z.pos p / 2 ^ q < 2 ^ 53).
  { split.
    - apply Z.div_le_lower_bound; [lia|]. rewrite <- Z.pow_add_r by lia.
      replace (q + 52) with (Z.pos (digits2_pos p) - 1) by lia. exact Hlow.
    - apply Z.div_lt_upper_bound; [lia|]. rewrite <- Z.pow_add_r by lia.
      replace (q + 53) with (Z.pos (digits2_pos p)) by lia. exact Hup. }
  unfold binary_normalize, binary_round, shl_align.
  replace (fexp prec emax (Z.pos (digits2_pos p) + 0) - 0) with q
    by (unfold fexp, emin, prec, emax; lia).
  destruct q as [|qq|qq] eqn:Eq; try lia.
  unfold binary_round_aux, shr_fexp at 1. cbn [Zdigits2].
  replace (fexp prec emax (Z.pos (digits2_pos p) + 0) - 0) with (Z.pos qq)
    by (unfold fexp, emin, prec, emax; lia).
  cbn [shr shr_record_of_loc].
  set (mrs := SpecFloat.iter_pos shr_1 qq _).
  assert (Hmrs : shr_m mrs = Z.pos p / 2 ^ Z.pos qq)
    by (subst mrs; rewrite iter_pos_shr_1_div by (cbn; lia); reflexivity).
  assert (Hr : shr_r mrs = Z.odd (Z.pos p / 2 ^ (Z.pos qq - 1)))
    by (subst mrs; rewrite iter_pos_shr_1_r by (cbn; lia); reflexivity).
  exists mrs. split; [exact Hmrs|]. split; [exact Hr|]. split; [lia|].
  destruct (round_nearest_even_cases mrs) as (_ & _ & Hbounds).
  rewrite shr_fexp_settled by (unfold emin, prec, emax; lia).
  change (0 + Z.pos qq) with (Z.pos qq). cbv zeta.
  destruct (Z.eqb_spec (round_nearest_even (shr_m mrs) (loc_of_shr_record mrs))
              (2 ^ 53)); [reflexivity|].
  cbn [shr_m].
  destruct (round_nearest_even (shr_m mrs) (loc_of_shr_record mrs)) as [|m|m];
    try lia.
  reflexivity.
Qed.

Lemma binary_normalize_large (p : positive) (q : Z) :
  q = Z.pos (digits2_pos p) - 53 -> 1 <= q ->
  (Z.pos p / 2 ^ q < 2 ^ 53 - 1 \/ Z.odd (Z.pos p / 2 ^ (q - 1)) = false ->
   exists m : positive,
     binary_normalize prec emax (Z.pos p) 0 false
     = if q <=? emax - prec then S754_finite false m q else S754_infinity false) /\
  (Z.pos p / 2 ^ q = 2 ^ 53 - 1 -> Z.odd (Z.pos p / 2 ^ (q - 1)) = true ->
   binary_normalize prec emax (Z.pos p) 0 false
   = if q + 1 <=? emax - prec then S754_finite false (2 ^ 52) (q + 1)
     else S754_infinity false).
Proof.
  intros Hq Hq1.
  destruct (binary_normalize_shifted p q Hq Hq1) as (mrs & Hmrs & Hr & Hm & ->).
  destruct (round_nearest_even_cases mrs) as (Hstay & Hcarry & Hbounds).
  cbv zeta. split.
  - intros Hcase.
    assert (Hlt : round_nearest_even (shr_m mrs) (loc_of_shr_record mrs) < 2 ^ 53).
    { destruct Hcase as [Hsmall|Heven]; [lia|].
      rewrite Hstay by congruence. lia. }
    destruct (Z.eqb_spec (round_nearest_even (shr_m mrs) (loc_of_shr_record mrs))
                (2 ^ 53)); [lia|].
    eexists. reflexivity.
  - intros Hfull Hodd.
    rewrite Hcarry by (rewrite ?Hmrs, ?Hfull; first [congruence | reflexivity]).
    rewrite Hmrs, Hfull. reflexivity.
Qed.

Lemma float_limit_eq : float_limit = (2 ^ 54 - 1) * 2 ^ 970.
Proof. reflexivity. Qed.

(** [float(k)] of a positive integer: a finite positive float below
    [2^1024 - 2^970], the midpoint between the largest float and [2^1024],
    and [OverflowError] from there on. *)
Lemma float_of_int_positive (k : Z) :
  0 < k ->
  (k < float_limit ->
   exists (m : positive) (e : Z), float_of_int k = Return (S754_finite false m e)) /\
  (float_limit <= k -> float_of_int k = Raise OverflowError).
Proof.
  intros Hk. destruct k as [|p|p]; try lia.
  pose proof (digits2_pos_lower p) as Hlow.
  pose proof (digits2_pos_value_upper p) as Hup.
  rewrite float_limit_eq.
  assert (H970 : 0 < 2 ^ 970) by (apply Z.pow_pos_nonneg; lia).
  destruct (Z_le_dec (Z.pos (digits2_pos p)) 53) as [Hsmall|Hbig].
  { assert (Z.pos p < 2 ^ 53).
    { eapply Z.lt_le_trans; [exact Hup|]. apply Z.pow_le_mono_r; lia. }
    split; [intros _; apply float_of_int_small; lia|]. nia. }
  destruct (binary_normalize_large p (Z.pos (digits2_pos p) - 53) eq_refl ltac:(lia))
    as [Hfin Hinf].
  assert (Hm53 : Z.pos p / 2 ^ (Z.pos (digits2_pos p) - 53) < 2 ^ 53).
  { apply Z.div_lt_upper_bound; [apply Z.pow_pos_nonneg; lia|].
    rewrite <- Z.pow_add_r by lia.
    replace (Z.pos (digits2_pos p) - 53 + 53) with (Z.pos (digits2_pos p)) by lia.
    exact Hup. }
  destruct (Z_le_dec (Z.pos (digits2_pos p)) 1023) as [Hmid|Htop].
  { assert (Z.pos p < 2 ^ 53 * 2 ^ 970).
    { rewrite <- Z.pow_add_r by lia. eapply Z.lt_le_trans; [exact Hup|].
      apply Z.pow_le_mono_r; lia. }
    split; [|nia]. intros _. unfold float_of_int.
    destruct (Z.odd (Z.pos p / 2 ^ (Z.pos (digits2_pos p) - 53 - 1))) eqn:Hodd.
    - destruct (Z_lt_dec (Z.pos p / 2 ^ (Z.pos (digits2_pos p) - 53)) (2 ^ 53 - 1))
        as [Hlt|Hge].
      + destruct (Hfin (or_introl Hlt)) as [m ->].
        destruct (Z.leb_spec (Z.pos (digits2_pos p) - 53) (emax - prec));
          [eauto | unfold emax, prec in *; lia].
      + rewrite Hinf; [|lia|reflexivity].
        destruct (Z.leb_spec (Z.pos (digits2_pos p) - 53 + 1) (emax - prec));
          [eauto | unfold emax, prec in *; lia].
    - destruct (Hfin (or_intror eq_refl)) as [m ->].
      destruct (Z.leb_spec (Z.pos (digits2_pos p) - 53) (emax - prec));
        [eauto | unfold emax, prec in *; lia]. }
  destruct (Z_le_dec 1025 (Z.pos (digits2_pos p))) as [Hover|Hedge].
  { assert (2 ^ 54 * 2 ^ 970 <= Z.pos p).
    { rewrite <- Z.pow_add_r by lia. eapply Z.le_trans; [|exact Hlow].
      apply Z.pow_le_mono_r; lia. }
    split; [nia|]. intros _. unfold float_of_int.
    rewrite binary_normalize_overflow; [reflexivity | unfold emax; lia]. }
  assert (Hd : Z.pos (digits2_pos p) = 1024) by lia.
  rewrite Hd in *. change (1024 - 53) with 971 in *. change (971 - 1) with 970 in *.
  change (1024 - 1) with 1023 in Hlow.
  assert (Hdiv : Z.pos p / 2 ^ 971 = Z.pos p / 2 ^ 970 / 2).
  { rewrite Z.div_div by lia. f_equal. }
  assert (Hh : 2 ^ 53 <= Z.pos p / 2 ^ 970 < 2 ^ 54).
  { split.
    - apply Z.div_le_lower_bound; [lia|]. rewrite <- Z.pow_add_r by lia. exact Hlow.
    - apply Z.div_lt_upper_bound; [lia|]. rewrite <- Z.pow_add_r by lia. exact Hup. }
  pose proof (Z.div_mod (Z.pos p) (2 ^ 970) ltac:(lia)) as E.
  pose proof (Z.mod_pos_bound (Z.pos p) (2 ^ 970) H970) as B.
  rewrite Hdiv in Hfin, Hinf. clear Hdiv Hlow Hup Hm53.
  set (h := Z.pos p / 2 ^ 970) in *. set (r := Z.pos p mod 2 ^ 970) in *.
  set (T := 2 ^ 970) in *. clearbody h r T.
  pose proof (Zodd_div2 h) as Hhalf. rewrite Z.div2_div in Hhalf.
  pose proof (Zeven_div2 h) as Hhalf'. rewrite Z.div2_div in Hhalf'.
  unfold float_of_int. split.
  - intros Hbelow. assert (Hh' : h <= 2 ^ 54 - 2) by nia.
    destruct (Z.odd h) eqn:Hodd.
    + apply Zodd_bool_iff in Hodd. specialize (Hhalf Hodd).
      assert (Hlt : h / 2 < 2 ^ 53 - 1) by lia.
      destruct (Hfin (or_introl Hlt)) as [m ->]. eauto.
    + destruct (Hfin (or_intror eq_refl)) as [m ->]. eauto.
  - intros Habove. assert (Hh' : h = 2 ^ 54 - 1) by nia.
    rewrite Hinf; [reflexivity| |]; rewrite Hh'; reflexivity.
Qed.

(** ** Proofs: the errors of the lattice estimator *)

Lemma lattice_count_positive (n : Z) : 0 <= n -> 0 < lattice_count n.
Proof.
  intros Hn. destruct (Z.eq_dec n 0) as [->|Hne]; [reflexivity|].
  pose proof (lattice_count_bounds n ltac:(lia)). nia.
Qed.

(** The count times four is the larger of the two integers of the final
    division: the estimator returns when it converts to a float, and raises
    [OverflowError] when it does not. *)
Lemma pi_simulation_cases {rng : Type} (n : Z) (g : rng) :
  0 <= n ->
  (4 * lattice_count n < float_limit ->
   exists f : float, pi_simulation n g = (Return f, g)) /\
  (float_limit <= 4 * lattice_count n ->
   pi_simulation n g = (Raise OverflowError, g)).
Proof.
  intros Hn. rewrite pi_simulation_spec by exact Hn.
  pose proof (lattice_count_positive n Hn) as Hc.
  assert (Hden : (n + 1) ^ 2 <= 4 * lattice_count n).
  { destruct (Z.eq_dec n 0) as [->|Hne]; [vm_compute; discriminate|].
    pose proof (lattice_count_bounds n ltac:(lia)). nia. }
  destruct (float_of_int_positive ((n + 1) ^ 2) ltac:(nia)) as [Hd1 Hd2].
  destruct (float_of_int_positive (4 * lattice_count n) ltac:(lia)) as [Hn1 Hn2].
  split.
  - intros Hlt. destruct (Hd1 ltac:(lia)) as (md & ed & ->).
    cbn [bind]. unfold int_div_float.
    destruct (Hn1 Hlt) as (mn & en & ->). cbn [bind].
    unfold float_div. cbn [float_is_zero]. eauto.
  - intros Hge. destruct (Z_lt_dec ((n + 1) ^ 2) float_limit) as [Hlt|Hbig].
    + destruct (Hd1 Hlt) as (md & ed & ->). cbn [bind]. unfold int_div_float.
      rewrite (Hn2 Hge). reflexivity.
    + rewrite Hd2 by lia. reflexivity.
Qed.

Lemma pi_simulation_overflow_iff {rng : Type} (n : Z) (g : rng) :
  fst (pi_simulation n g) = Raise OverflowError
  <-> 0 <= n /\ float_limit <= 4 * lattice_count n.
Proof.
  destruct (Z_lt_dec n 0) as [Hneg|Hpos].
  { rewrite pi_simulation_negative by exact Hneg. cbn [fst].
    split; [discriminate | lia]. }
  destruct (pi_simulation_cases n g ltac:(lia)) as [Hret Hraise].
  destruct (Z_lt_dec (4 * lattice_count n) float_limit) as [Hlt|Hge].
  - destruct (Hret Hlt) as [f ->]. cbn [fst]. split; [discriminate | lia].
  - rewrite Hraise by lia. cbn [fst]. split; [lia | reflexivity].
Qed.

Lemma pi_simulation_raises {rng : Type} (g : rng) :
  raises_only [ValueError; OverflowError] (fun n => fst (pi_simulation n g)).
Proof.
  intros n e. destruct (Z_lt_dec n 0) as [Hneg|Hpos].
  { rewrite pi_simulation_negative by exact Hneg. cbn [fst].
    intros [= <-]. left. reflexivity. }
  destruct (pi_simulation_cases n g ltac:(lia)) as [Hret Hraise].
  destruct (Z_lt_dec (4 * lattice_count n) float_limit) as [Hlt|Hge].
  - destruct (Hret Hlt) as [f ->]. discriminate.
  - rewrite Hraise by lia. cbn [fst]. intros [= <-]. right. left. reflexivity.
Qed.

Lemma float_limit_above (a : Z) : 0 <= a <= 2 ^ 510 -> 4 * a ^ 2 < float_limit.
Proof.
  intros Ha. rewrite float_limit_eq.
  assert (E : 2 ^ 510 * 2 ^ 510 = 2 ^ 50 * 2 ^ 970) by reflexivity.
  assert (H970 : 0 < 2 ^ 970) by (apply Z.pow_pos_nonneg; lia).
  set (A := 2 ^ 510) in *. set (T := 2 ^ 970) in *. clearbody A T. nia.
Qed.

Lemma float_limit_below (b : Z) : 2 ^ 512 <= b -> float_limit <= 2 * b ^ 2.
Proof.
  intros Hb. rewrite float_limit_eq.
  assert (E : 2 ^ 512 * 2 ^ 512 = 2 ^ 54 * 2 ^ 970) by reflexivity.
  assert (H970 : 0 < 2 ^ 970) by (apply Z.pow_pos_nonneg; lia).
  assert (H512 : 0 < 2 ^ 512) by (apply Z.pow_pos_nonneg; lia).
  set (B := 2 ^ 512) in *. set (T := 2 ^ 970) in *. clearbody B T. nia.
Qed.

(** Below [n = 2^510] the estimator returns; from [n = 2^512] on it raises. *)
Lemma pi_simulation_returns_below {rng : Type} (n : Z) (g : rng) :
  0 <= n < 2 ^ 510 -> exists f : float, pi_simulation n g = (Return f, g).
Proof.
  intros Hn. apply pi_simulation_cases; [lia|].
  pose proof (lattice_count_bound n ltac:(lia)).
  pose proof (float_limit_above (n + 1) ltac:(lia)). lia.
Qed.

Lemma pi_simulation_overflows {rng : Type} (n : Z) (g : rng) :
  2 ^ 512 <= n -> pi_simulation n g = (Raise OverflowError, g).
Proof.
  intros Hn.
  assert (H512 : 0 < 2 ^ 512) by (apply Z.pow_pos_nonneg; lia).
  apply pi_simulation_cases; [lia|].
  pose proof (lattice_count_bounds n ltac:(lia)) as [Hlow _].
  pose proof (float_limit_below n Hn). nia.
Qed.

(** ** Proofs: the errors of the Monte Carlo estimator *)

Section MonteCarloErrors.

Variable float_pow : float -> Z -> result float.
Variable rng : Type.
Variable random_random : rng -> float * rng.
Hypothesis pow_raises : pow_raises_overflow_only float_pow.

Lemma pi_simulation_by_random_loop_raises (l : list Z) (acc : Z) (g g' : rng) (e : exn) :
  sfor_loop
    (fun count (_ : Z) =>
       (x <- (fun g0 => let '(v, g1) := random_random g0 in (Return v, g1)) ;;
        y <- (fun g0 => let '(v, g1) := random_random g0 in (Return v, g1)) ;;
        x2 <- lift (float_pow x 2) ;;
        y2 <- lift (float_pow y 2) ;;
        if float_le_int (float_add x2 y2) 1 then sret (count + 1)
        else sret count)%state)
    l acc g = (Raise e, g') ->
  e = OverflowError.
Proof.
  apply (sfor_loop_raises (fun e0 => e0 = OverflowError)).
  intros a i s0 s1 e0. unfold sbind, lift, sret.
  destruct (random_random s0) as [x s2].
  destruct (random_random s2) as [y s3].
  destruct (float_pow x 2) as [x2|ex] eqn:Ex.
  2:{ intros [= <- <-]. apply (pow_raises x 2); [lia | exact Ex]. }
  destruct (float_pow y 2) as [y2|ey] eqn:Ey.
  2:{ intros [= <- <-]. apply (pow_raises y 2); [lia | exact Ey]. }
  destruct (float_le_int _ _); discriminate.
Qed.

(** From [n = 1] on the divisor [float(n)] is not zero: what is raised is
    raised by the power or by a conversion to float. *)
Lemma pi_simulation_by_random_positive (n : Z) (g : rng) (e : exn) :
  1 <= n ->
  fst (pi_simulation_by_random float_pow random_random n g) = Raise e ->
  e = OverflowError.
Proof.
  intros Hn. unfold pi_simulation_by_random.
  destruct (Z.ltb_spec n 0); [lia|].
  unfold sbind at 1.
  match goal with
  | |- context [sfor_loop ?body ?l ?acc g] =>
      destruct (sfor_loop body l acc g) as [[count|e0] g'] eqn:Eloop
  end.
  - unfold sbind, lift. cbn [fst].
    destruct (float_of_int_positive n ltac:(lia)) as [Hfin Hinf].
    destruct (Z_lt_dec n float_limit) as [Hlt|Hge].
    + destruct (Hfin Hlt) as (m & ex & ->). cbn [fst]. unfold int_div_float.
      destruct (float_of_int (4 * count)) as [a|e1] eqn:E.
      * cbn [bind]. unfold float_div. cbn [float_is_zero]. discriminate.
      * cbn [bind]. intros [= <-]. exact (float_of_int_raises _ _ E).
    + rewrite Hinf by lia. cbn [fst]. congruence.
  - cbn [fst]. intros [= <-].
    exact (pi_simulation_by_random_loop_raises _ _ _ _ _ Eloop).
Qed.

Lemma pi_simulation_by_random_raises (g : rng) :
  raises_only [ValueError; ZeroDivisionError; OverflowError]
    (fun n => fst (pi_simulation_by_random float_pow random_random n g)).
Proof.
  intros n e H. destruct (Z_lt_dec n 0) as [Hneg|Hpos].
  { rewrite pi_simulation_by_random_negative in H by exact Hneg.
    injection H as <-. left. reflexivity. }
  destruct (Z.eq_dec n 0) as [->|Hne].
  { injection H as <-. right. left. reflexivity. }
  rewrite (pi_simulation_by_random_positive n g e ltac:(lia) H).
  right. right. left. reflexivity.
Qed.

Lemma pi_simulation_by_random_zero_division_iff (n : Z) (g : rng) :
  fst (pi_simulation_by_random float_pow random_random n g) = Raise ZeroDivisionError
  <-> n = 0.
Proof.
  split; [|intros ->; reflexivity].
  intros H. destruct (Z_lt_dec n 0) as [Hneg|Hpos].
  { rewrite pi_simulation_by_random_negative in H by exact Hneg. discriminate. }
  destruct (Z.eq_dec n 0) as [|Hne]; [assumption|].
  pose proof (pi_simulation_by_random_positive n g _ ltac:(lia) H). discriminate.
Qed.

(** From [n = 2^1024] on the call cannot return: [float(n)] is out of
    range. *)
Lemma pi_simulation_by_random_overflows (n : Z) (g : rng) :
  2 ^ 1024 <= n ->
  fst (pi_simulation_by_random float_pow random_random n g) = Raise OverflowError.
Proof.
  intros Hn.
  assert (Hl : float_limit <= n).
  { unfold float_limit. assert (0 < 2 ^ 970) by (apply Z.pow_pos_nonneg; lia). lia. }
  assert (H1 : 1 <= n).
  { assert (0 < 2 ^ 1024) by (apply Z.pow_pos_nonneg; lia). lia. }
  destruct (fst (pi_simulation_by_random float_pow random_random n g))
    as [f|e] eqn:E.
  - exfalso. revert E. unfold pi_simulation_by_random.
    destruct (Z.ltb_spec n 0); [lia|].
    unfold sbind at 1.
    match goal with
    | |- context [sfor_loop ?body ?l ?acc g] =>
        destruct (sfor_loop body l acc g) as [[count|e0] g']
    end; [|discriminate].
    unfold sbind, lift.
    rewrite (proj2 (float_of_int_positive n ltac:(lia)) Hl). discriminate.
  - rewrite (pi_simulation_by_random_positive n g e H1 E). reflexivity.
Qed.

End MonteCarloErrors.

(** ** Proofs: the runs of the Monte Carlo estimator *)

Section MonteCarloRuns.

Variable float_pow : float -> Z -> result float.
Variable rng : Type.
Variable random_random : rng -> float * rng.
Hypothesis pow_raises : pow_raises_overflow_only float_pow.

Lemma drawn_pairs_length (k : nat) (g : rng) :
  length (drawn_pairs random_random k g) = k.
Proof.
  revert g; induction k as [|k IH]; intros g; cbn [drawn_pairs]; [reflexivity|].
  destruct (random_random g) as [x g1]. destruct (random_random g1) as [y g2].
  cbn [length]. rewrite IH. reflexivity.
Qed.

(** The loop, pass by pass: it counts the hits among the pairs it draws, and
    stops with the power's error at the first number the power fails on. *)
Lemma pi_simulation_by_random_loop_spec (l : list Z) (acc : Z) (g : rng) :
  fst (sfor_loop
         (fun count (_ : Z) =>
            (x <- (fun g0 => let '(v, g1) := random_random g0 in (Return v, g1)) ;;
             y <- (fun g0 => let '(v, g1) := random_random g0 in (Return v, g1)) ;;
             x2 <- lift (float_pow x 2) ;;
             y2 <- lift (float_pow y 2) ;;
             if float_le_int (float_add x2 y2) 1 then sret (count + 1)
             else sret count)%state)
         l acc g)
  = if forallb (squares_return float_pow) (drawn_pairs random_random (length l) g)
    then Return (acc + Z.of_nat (length (List.filter (is_hit float_pow)
                                           (drawn_pairs random_random (length l) g))))
    else Raise OverflowError.
Proof.
  revert acc g; induction l as [|i l IH]; intros acc g.
  - cbn. f_equal. lia.
  - cbn [sfor_loop length drawn_pairs]. unfold sbind at 1.
    match goal with
    | |- context [match ?body g with _ => _ end] =>
        destruct (body g) as [[acc'|e] g1] eqn:Ebody
    end; revert Ebody; unfold sbind, lift, sret;
      destruct (random_random g) as [x s2];
      destruct (random_random s2) as [y s3];
      cbn [forallb List.filter];
      change (squares_return float_pow (x, y))
        with (match float_pow x 2, float_pow y 2 with
              | Return _, Return _ => true
              | _, _ => false
              end);
      change (is_hit float_pow (x, y))
        with (match float_pow x 2, float_pow y 2 with
              | Return x2, Return y2 => float_le_int (float_add x2 y2) 1
              | _, _ => false
              end);
      destruct (float_pow x 2) as [x2|ex] eqn:Ex;
      try destruct (float_pow y 2) as [y2|ey] eqn:Ey;
      try destruct (float_le_int (float_add x2 y2) 1);
      intros [= <- <-]; cbn [andb fst];
      try (rewrite IH; destruct (forallb _ _); [cbn [length]; f_equal; lia | reflexivity]).
    all: f_equal;
      first [ apply (pow_raises x 2); [lia | exact Ex]
            | apply (pow_raises y 2); [lia | exact Ey] ].
Qed.

(** The whole call for [n >= 0]: the float quotient of four times the hits
    by n, unless the power fails on a number drawn. *)
Lemma pi_simulation_by_random_spec (n : Z) (g : rng) :
  0 <= n ->
  fst (pi_simulation_by_random float_pow random_random n g)
  = if forallb (squares_return float_pow) (drawn_pairs random_random (Z.to_nat n) g)
    then (den <- float_of_int n ;;
          int_div_float (4 * hits float_pow random_random n g) den)%result
    else Raise OverflowError.
Proof.
  intros Hn. unfold pi_simulation_by_random.
  destruct (Z.ltb_spec n 0); [lia|].
  unfold sbind at 1.
  match goal with
  | |- context [sfor_loop ?body ?l ?acc g] =>
      pose proof (pi_simulation_by_random_loop_spec l acc g) as Hloop;
      destruct (sfor_loop body l acc g) as [[count|e] g']
  end; cbn [fst] in Hloop; rewrite range_length in Hloop;
    replace (Z.to_nat (n - 0)) with (Z.to_nat n) in Hloop by lia;
    destruct (forallb _ _); try discriminate.
  - injection Hloop as ->. unfold sbind, lift, hits.
    destruct (float_of_int n) as [den|e]; [|reflexivity].
    cbn [bind fst]. destruct (int_div_float _ den); reflexivity.
  - cbn [fst]. injection Hloop as ->. reflexivity.
Qed.

Lemma hits_bounds (n : Z) (g : rng) :
  0 <= n -> 0 <= hits float_pow random_random n g <= n.
Proof.
  intros Hn. unfold hits.
  pose proof (List.filter_length_le (is_hit float_pow)
                (drawn_pairs random_random (Z.to_nat n) g)) as H.
  rewrite drawn_pairs_length in H. lia.
Qed.

(** When the call raises [OverflowError], and when it returns. *)
Lemma pi_simulation_by_random_cases (n : Z) (g : rng) :
  1 <= n ->
  let failed :=
    forallb (squares_return float_pow) (drawn_pairs random_random (Z.to_nat n) g)
    = false \/
    float_limit <= n \/
    float_limit <= 4 * hits float_pow random_random n g in
  (failed ->
   fst (pi_simulation_by_random float_pow random_random n g) = Raise OverflowError) /\
  (~ failed ->
   exists f : float,
     fst (pi_simulation_by_random float_pow random_random n g) = Return f).
Proof.
  intros Hn failed. subst failed.
  rewrite pi_simulation_by_random_spec by lia.
  pose proof (hits_bounds n g ltac:(lia)) as Hh.
  destruct (float_of_int_positive n ltac:(lia)) as [Hfin Hinf].
  destruct (forallb _ _); [|split; [reflexivity | intros H; exfalso; apply H; left; reflexivity]].
  destruct (Z_lt_dec n float_limit) as [Hlt|Hge].
  2:{ rewrite Hinf by lia. split; [reflexivity | intros H; exfalso; apply H; lia]. }
  destruct (Hfin Hlt) as (m & e & ->). cbn [bind]. unfold int_div_float.
  destruct (Z.eq_dec (hits float_pow random_random n g) 0) as [E|Hpos].
  { rewrite E. change (4 * 0) with 0. cbn [float_of_int binary_normalize bind].
    unfold float_div. cbn [float_is_zero].
    split; [|eauto]. intros [H|[H|H]]; [discriminate|lia|].
    exfalso. rewrite float_limit_eq in H.
    assert (0 < 2 ^ 970) by (apply Z.pow_pos_nonneg; lia). nia. }
  destruct (float_of_int_positive (4 * hits float_pow random_random n g) ltac:(lia))
    as [Hfin' Hinf'].
  destruct (Z_lt_dec (4 * hits float_pow random_random n g) float_limit) as [Hlt'|Hge'].
  - destruct (Hfin' Hlt') as (m' & e' & ->). cbn [bind].
    unfold float_div. cbn [float_is_zero].
    split; [|eauto]. intros [H|[H|H]]; [discriminate|lia|lia].
  - rewrite Hinf' by lia. cbn [bind].
    split; [reflexivity | intros H; exfalso; apply H; lia].
Qed.

Lemma pi_simulation_by_random_overflow_iff (n : Z) (g : rng) :
  fst (pi_simulation_by_random float_pow random_random n g) = Raise OverflowError
  <-> 1 <= n /\
      (forallb (squares_return float_pow) (drawn_pairs random_random (Z.to_nat n) g)
       = false \/
       float_limit <= n \/
       float_limit <= 4 * hits float_pow random_random n g).
Proof.
  destruct (Z_lt_dec n 0) as [Hneg|Hpos].
  { rewrite pi_simulation_by_random_negative by exact Hneg. cbn [fst].
    split; [discriminate | lia]. }
  destruct (Z.eq_dec n 0) as [->|Hne].
  { split; [discriminate | lia]. }
  destruct (pi_simulation_by_random_cases n g ltac:(lia)) as [Hfail Hret].
  cbv zeta in Hfail, Hret. split.
  - intros H. split; [lia|].
    destruct (forallb _ _) eqn:Eall; [|left; reflexivity]. right.
    destruct (Z_le_dec float_limit n) as [|Hn]; [left; assumption|]. right.
    destruct (Z_le_dec float_limit (4 * hits float_pow random_random n g)) as [|Hh];
      [assumption|].
    exfalso. destruct Hret as [f Hf]; [|congruence].
    intros [H'|[H'|H']]; [discriminate | lia | lia].
  - intros [_ H]. apply Hfail, H.
Qed.

End MonteCarloRuns.

(** ** Proofs: the errors of the Binet functions *)

Lemma int_of_float_raises_only (x : float) (e : exn) :
  int_of_float x = Raise e -> e = ValueError \/ e = OverflowError.
Proof. destruct x; cbn [int_of_float]; intros [= <-]; auto. Qed.

Section BinetErrors.

Variable float_pow : float -> Z -> result float.
Hypothesis pow_raises : pow_raises_overflow_only float_pow.

Lemma fib_by_binet_raises :
  raises_only [ValueError; OverflowError] (fib_by_binet float_pow).
Proof.
  intros n e. destruct (Z_lt_dec n 0) as [Hneg|Hpos].
  { rewrite fib_by_binet_negative by exact Hneg. intros [= <-]. left. reflexivity. }
  assert (Hn : 0 <= n) by lia.
  rewrite fib_by_binet_unfold by lia. unfold bind.
  destruct (float_pow float_phi n) as [phin|e1] eqn:E1.
  2:{ intros [= <-]. rewrite (pow_raises _ _ _ Hn E1).
      right. left. reflexivity. }
  destruct (float_pow float_psi n) as [psin|e2] eqn:E2.
  2:{ intros [= <-]. rewrite (pow_raises _ _ _ Hn E2).
      right. left. reflexivity. }
  unfold float_div. cbn [float_is_zero float_sqrt5].
  intros H. destruct (int_of_float_raises_only _ _ H) as [-> | ->];
    [left | right; left]; reflexivity.
Qed.

Lemma fib_by_binet_approx_raises :
  raises_only [ValueError; OverflowError] (fib_by_binet_approx float_pow).
Proof.
  intros n e. destruct (Z_lt_dec n 0) as [Hneg|Hpos].
  { rewrite fib_by_binet_approx_negative by exact Hneg.
    intros [= <-]. left. reflexivity. }
  assert (Hn : 0 <= n) by lia.
  rewrite fib_by_binet_approx_unfold by lia. unfold bind.
  destruct (float_pow float_phi n) as [phin|e1] eqn:E1.
  2:{ intros [= <-]. rewrite (pow_raises _ _ _ Hn E1).
      right. left. reflexivity. }
  unfold float_div. cbn [float_is_zero float_sqrt5].
  intros H. destruct (int_of_float_raises_only _ _ H) as [-> | ->];
    [left | right; left]; reflexivity.
Qed.

End BinetErrors.

(** ** The claim on errors *)

Lemma raising_breaks_contract {A : Type} (f : Z -> result A) (n : Z) (e : exn) :
  f n = Raise e -> e <> ValueError -> ~ error_contract f.
Proof. intros H He [_ Hnothing]. exact (He (Hnothing n e H)). Qed.


Lemma fib_by_recursive_errors (frames : nat) :
  (1 <= frames)%nat ->
  raises_iff_negative (fib_by_recursive frames) /\
  raises_only [ValueError; RuntimeError] (fib_by_recursive frames) /\
  (forall n : Z, fib_by_recursive frames n = Raise RuntimeError <-> Z.of_nat frames < n).
Proof.
  intros Hf. split; [|split].
  - intros n. rewrite fib_by_recursive_cases by exact Hf.
    destruct (Z.ltb_spec n 0); [split; [lia | reflexivity]|].
    destruct (Z.leb_spec (Z.max n 1) (Z.of_nat frames)); split; (discriminate || lia).
  - intros n e. rewrite fib_by_recursive_cases by exact Hf.
    destruct (Z.ltb_spec n 0); [intros [= <-]; left; reflexivity|].
    destruct (Z.leb_spec (Z.max n 1) (Z.of_nat frames)); [discriminate|].
    intros [= <-]. right. left. reflexivity.
  - intros n. rewrite fib_by_recursive_cases by exact Hf.
    destruct (Z.ltb_spec n 0); [split; [discriminate | lia]|].
    destruct (Z.leb_spec (Z.max n 1) (Z.of_nat frames));
      split; (discriminate || lia || reflexivity).
Qed.



(** ** Proofs: the closed form, one argument after the other *)

Lemma binet_with_powers_spec (n : Z) :
  1 <= n ->
  (fib_by_binet pow_reference n, fib_by_binet_approx pow_reference n)
  = binet_with_powers n (7286977268806824 ^ n) (5566755282872656 ^ n).
Proof.
  intros Hn.
  rewrite fib_by_binet_unfold, fib_by_binet_approx_unfold by lia.
  unfold binet_with_powers, pow_reference, float_phi, float_psi.
  destruct (Z.eqb_spec n 0); [lia|].
  destruct (Z.ltb_spec 0 n); [|lia].
  cbn [andb cond_Zopp].
  replace (-52 * n) with (-52 * n) by reflexivity.
  replace (-53 * n) with (-53 * n) by reflexivity.
  reflexivity.
Qed.

Lemma binet_table_spec (k : nat) (n : Z) :
  1 <= n ->
  binet_table k n (7286977268806824 ^ n) (5566755282872656 ^ n)
  = map (fun i => (i, (fib_by_binet pow_reference i,
                       fib_by_binet_approx pow_reference i)))
      (range n (n + Z.of_nat k)).
Proof.
  revert n; induction k as [|k IH]; intros n Hn.
  - rewrite range_nil by lia. reflexivity.
  - rewrite range_cons by lia. cbn [binet_table map].
    rewrite binet_with_powers_spec by exact Hn. f_equal.
    rewrite <- !Z.pow_succ_r by lia.
    replace (n + Z.of_nat (S k)) with (Z.succ n + Z.of_nat k) by lia.
    replace (n + 1) with (Z.succ n) by lia.
    apply IH. lia.
Qed.

Lemma forallb_map_compose {A B : Type} (f : A -> B) (c : B -> bool) (l : list A) :
  forallb c (map f l) = forallb (fun a => c (f a)) l.
Proof.
  induction l as [|a l IH]; cbn [map forallb]; [reflexivity|]. rewrite IH. reflexivity.
Qed.

Lemma binet_table_checked (c : Z * (result Z * result Z) -> bool) (k : nat) :
  forallb c (binet_table k 1 7286977268806824 5566755282872656) = true ->
  forall i : Z,
    1 <= i <= Z.of_nat k ->
    c (i, (fib_by_binet pow_reference i, fib_by_binet_approx pow_reference i)) = true.
Proof.
  intros Hall i Hi.
  pose proof (binet_table_spec k 1 ltac:(lia)) as Hspec.
  change (7286977268806824 ^ 1) with 7286977268806824 in Hspec.
  change (5566755282872656 ^ 1) with 5566755282872656 in Hspec.
  rewrite Hspec, forallb_map_compose, forallb_forall in Hall. clear Hspec.
  apply Hall. apply list_elem_of_In, elem_of_range. lia.
Qed.

(** ** The claim on the Binet functions

    What the two closed forms return depends on how the C library rounds
    [pow].  The statements below take the power as correctly rounded, or as
    any power within one unit in the last place of that. *)

Lemma binet_rounded_unfold (float_pow : float -> Z -> result float) (n : Z) :
  0 <= n ->
  binet_rounded float_pow n
  = (phin <- float_pow float_phi n ;;
     psin <- float_pow float_psi n ;;
     q <- float_div (float_sub phin psin) float_sqrt5 ;;
     int_of_float (round_float q))%result.
Proof.
  intros Hn. unfold binet_rounded. destruct (Z.ltb_spec n 0); [lia|].
  destruct binet_constants as (-> & Hphi & Hpsi). cbn [bind].
  destruct (int_add_float 1 float_sqrt5) as [s1|]; [|discriminate].
  cbn [bind] in Hphi |- *. rewrite Hphi. cbn [bind].
  destruct (float_pow float_phi n) as [phin|]; [|reflexivity]. cbn [bind].
  destruct (int_sub_float 1 float_sqrt5) as [s2|]; [|discriminate].
  cbn [bind] in Hpsi |- *. rewrite Hpsi. reflexivity.
Qed.

(** The two powers at [n = 71], correctly rounded. *)
Lemma pow_reference_71 :
  pow_reference float_phi 71 = Return (S754_finite false 5510772020707205 (-3)) /\
  pow_reference float_psi 71 = Return (S754_finite true 7361004783881070 (-102)).
Proof. split; vm_compute; reflexivity. Qed.

(** At [n = 71] truncation and rounding part, whichever of the three floats
    around each power the library returns: the quotient lies in the upper
    half of the interval from F(71) = 308061521170129 to F(71) + 1. *)
Lemma binet_truncates_at_71 (float_pow : float -> Z -> result float) :
  pow_within_one_ulp float_pow ->
  fib_by_binet float_pow 71 = Return 308061521170129 /\
  binet_rounded float_pow 71 = Return 308061521170130.
Proof.
  intros H.
  assert (H71 : 0 <= 71) by lia.
  pose proof (H _ _ _ H71 (proj1 pow_reference_71)) as H1.
  pose proof (H _ _ _ H71 (proj2 pow_reference_71)) as H2.
  clear H.
  rewrite fib_by_binet_unfold, binet_rounded_unfold by exact H71.
  destruct H1 as [-> | [-> | ->]]; destruct H2 as [-> | [-> | ->]];
    split; vm_compute; reflexivity.
Qed.

Lemma pow_reference_within_one_ulp : pow_within_one_ulp pow_reference.
Proof. intros x k r _ ->. right. left. reflexivity. Qed.

(** C8, as the specification words it, fails in its first half: the code
    truncates the quotient with [int], it does not round it, and at
    [n = 71] the two differ.  fib_by_binet(71) is 308061521170129, the exact
    Fibonacci number, where the rounded quotient is 308061521170130; this
    holds for the correctly rounded power and for every library power
    within one unit in the last place of it. *)
Lemma binet_contract_counterexample :
  pow_within_one_ulp pow_reference /\
  (forall float_pow : float -> Z -> result float,
     pow_within_one_ulp float_pow ->
     fib_by_binet float_pow 71 = Return 308061521170129 /\
     binet_rounded float_pow 71 = Return 308061521170130) /\
  ~ (exists float_pow : float -> Z -> result float,
       pow_within_one_ulp float_pow /\ binet_contract float_pow).
Proof.
  split; [exact pow_reference_within_one_ulp|].
  split; [exact binet_truncates_at_71|].
  intros (float_pow & Hulp & Hround & _).
  destruct (binet_truncates_at_71 float_pow Hulp) as [Ht Hr].
  specialize (Hround 71 ltac:(lia)). rewrite Ht, Hr in Hround. discriminate.
Qed.

Lemma binet_rounded_with_powers_spec (n : Z) :
  1 <= n ->
  (fib_by_binet pow_reference n, binet_rounded pow_reference n)
  = binet_rounded_with_powers n (7286977268806824 ^ n) (5566755282872656 ^ n).
Proof.
  intros Hn.
  rewrite fib_by_binet_unfold, binet_rounded_unfold by lia.
  unfold binet_rounded_with_powers, pow_reference, float_phi, float_psi.
  destruct (Z.eqb_spec n 0); [lia|].
  destruct (Z.ltb_spec 0 n); [|lia].
  reflexivity.
Qed.

Lemma binet_rounded_table_spec (k : nat) (n : Z) :
  1 <= n ->
  binet_rounded_table k n (7286977268806824 ^ n) (5566755282872656 ^ n)
  = map (fun i => (i, (fib_by_binet pow_reference i, binet_rounded pow_reference i)))
      (range n (n + Z.of_nat k)).
Proof.
  revert n; induction k as [|k IH]; intros n Hn.
  - rewrite range_nil by lia. reflexivity.
  - rewrite range_cons by lia. cbn [binet_rounded_table map].
    rewrite binet_rounded_with_powers_spec by exact Hn. f_equal.
    rewrite <- !Z.pow_succ_r by lia.
    replace (n + Z.of_nat (S k)) with (Z.succ n + Z.of_nat k) by lia.
    replace (n + 1) with (Z.succ n) by lia.
    apply IH. lia.
Qed.

Lemma binet_rounded_table_checked (c : Z * (result Z * result Z) -> bool) (k : nat) :
  forallb c (binet_rounded_table k 1 7286977268806824 5566755282872656) = true ->
  forall i : Z,
    1 <= i <= Z.of_nat k ->
    c (i, (fib_by_binet pow_reference i, binet_rounded pow_reference i)) = true.
Proof.
  intros Hall i Hi.
  pose proof (binet_rounded_table_spec k 1 ltac:(lia)) as Hspec.
  change (7286977268806824 ^ 1) with 7286977268806824 in Hspec.
  change (5566755282872656 ^ 1) with 5566755282872656 in Hspec.
  rewrite Hspec, forallb_map_compose, forallb_forall in Hall. clear Hspec.
  apply Hall. apply list_elem_of_In, elem_of_range. lia.
Qed.

(** What the three closed forms return for [1 <= i <= 70], with the
    correctly rounded power. *)
Lemma binet_values_to_70 (i : Z) :
  1 <= i <= 70 ->
  fib_by_binet pow_reference i = Return (fib (Z.to_nat i)) /\
  binet_rounded pow_reference i = Return (fib (Z.to_nat i)) /\
  fib_by_binet_approx pow_reference i = Return (fib (Z.to_nat i)).
Proof.
  intros Hi.
  pose proof (binet_rounded_table_checked
    (fun '(i, (u, v)) =>
       match u, v, fib_by_loop i with
       | Return a, Return b, Return c => (a =? c) && (b =? c)
       | _, _, _ => false
       end) 70 ltac:(vm_compute; reflexivity) i Hi) as Hround.
  pose proof (binet_table_checked
    (fun '(i, (u, v)) =>
       match v, fib_by_loop i with
       | Return b, Return c => b =? c
       | _, _ => false
       end) 70 ltac:(vm_compute; reflexivity) i Hi) as Happrox.
  cbv beta iota in Hround, Happrox.
  rewrite fib_by_loop_spec in Hround, Happrox by lia.
  destruct (fib_by_binet pow_reference i) as [a|]; [|discriminate].
  destruct (binet_rounded pow_reference i) as [b|]; [|discriminate].
  destruct (fib_by_binet_approx pow_reference i) as [c|]; [|discriminate].
  apply andb_true_iff in Hround. destruct Hround as [Ha Hb].
  apply Z.eqb_eq in Ha, Hb, Happrox. subst. repeat split.
Qed.

Lemma fib_by_binet_ext (float_pow : float -> Z -> result float) (n : Z) :
  pow_correctly_rounded float_pow -> 0 <= n ->
  fib_by_binet float_pow n = fib_by_binet pow_reference n /\
  binet_rounded float_pow n = binet_rounded pow_reference n /\
  fib_by_binet_approx float_pow n = fib_by_binet_approx pow_reference n.
Proof.
  intros Hpow Hn.
  rewrite !fib_by_binet_unfold, !binet_rounded_unfold, !fib_by_binet_approx_unfold
    by exact Hn.
  rewrite !Hpow by exact Hn. repeat split.
Qed.

(** C8, amended: fib_by_binet(n) computes int((phi^n - psi^n)/sqrt(5)), the
    quotient truncated where the claim has it rounded; given a correctly
    rounded library power, for every 0 <= n <= 70, and so for every n from
    0 to 40, the truncated and the rounded quotient are the same integer,
    and fib_by_binet(n) and fib_by_binet_approx(n) both equal the exact
    Fibonacci number. *)
Theorem binet_exact_when_power_rounds
    (float_pow : float -> Z -> result float) (n : Z) :
  pow_correctly_rounded float_pow ->
  0 <= n <= 70 ->
  fib_by_binet float_pow n = Return (fib (Z.to_nat n)) /\
  binet_rounded float_pow n = Return (fib (Z.to_nat n)) /\
  fib_by_binet_approx float_pow n = Return (fib (Z.to_nat n)).
Proof.
  intros Hpow Hn.
  destruct (fib_by_binet_ext float_pow n Hpow ltac:(lia)) as (-> & -> & ->).
  destruct (Z.eq_dec n 0) as [->|Hne]; [repeat split|].
  apply binet_values_to_70. lia.
Qed.

Lemma binet_exact_when_power_rounds_witness :
  pow_correctly_rounded pow_reference /\
  0 <= 40 <= 70 /\
  fib_by_binet pow_reference 40 = Return (fib (Z.to_nat 40)) /\
  binet_rounded pow_reference 40 = Return (fib (Z.to_nat 40)) /\
  fib_by_binet_approx pow_reference 40 = Return (fib (Z.to_nat 40)).
Proof.
  assert (H : pow_correctly_rounded pow_reference) by (intros x k _; reflexivity).
  split; [exact H|]. split; [lia|].
  apply (binet_exact_when_power_rounds pow_reference 40 H). lia.
Defined.

(** The exact values need the correct rounding.  With a power that is one
    unit in the last place too low, the truncating fib_by_binet misses the
    second Fibonacci number, while the rounding fib_by_binet_approx still
    finds it. *)
Example binet_truncation_is_fragile :
  fib_by_loop 2 = Return 1 /\
  fib_by_binet pow_below 2 = Return 0 /\
  fib_by_binet_approx pow_below 2 = Return 1.
Proof. repeat split; reflexivity. Qed.

(** ** Further properties: the exact Fibonacci functions *)

(** X1: for every non-negative n, fib_by_loop, fib_by_dp(n)[n],
    fib_by_cache and fib_by_matrix return the same integer, the n-th number
    of the sequence defined by F(0) = 0, F(1) = 1, F(k+2) = F(k+1) + F(k).
    fib_by_recursive returns it too when the interpreter still allows
    max(n, 1) nested calls, and raises [RuntimeError] when it allows fewer.
    The cached variant is called on the dictionary left by any earlier
    calls [ns]. *)
Theorem fib_variants_agree_everywhere (frames : nat) (n : Z) (ns : list Z) :
  0 <= n ->
  fib_by_loop n = Return (fib (Z.to_nat n)) /\
  (exists l : list Z, fib_by_dp n = Return l /\ list_getitem l n = fib_by_loop n) /\
  fst (fib_by_cache n (snd (run_calls ns initial_cache))) = fib_by_loop n /\
  fib_by_matrix n = fib_by_loop n /\
  fib_by_recursive frames n
  = (if Z.max n 1 <=? Z.of_nat frames then fib_by_loop n else Raise RuntimeError).
Proof.
  intros Hn. rewrite fib_by_loop_spec by exact Hn.
  split; [reflexivity|].
  split; [apply fib_by_dp_getitem; exact Hn|].
  split.
  { destruct (run_calls_fib_map ns) as (m & Hm & ->).
    rewrite fib_by_cache_spec by assumption. reflexivity. }
  split; [apply fib_by_matrix_spec; exact Hn|].
  destruct (Z.leb_spec (Z.max n 1) (Z.of_nat frames)).
  - apply fib_by_recursive_spec; assumption.
  - apply fib_by_recursive_exhausted; assumption.
Qed.

Lemma fib_variants_agree_everywhere_witness :
  0 <= 1000 /\
  fib_by_loop 1000 = Return (fib (Z.to_nat 1000)) /\
  (exists l : list Z,
     fib_by_dp 1000 = Return l /\ list_getitem l 1000 = fib_by_loop 1000) /\
  fst (fib_by_cache 1000 (snd (run_calls [12; 4] initial_cache))) = fib_by_loop 1000 /\
  fib_by_matrix 1000 = fib_by_loop 1000 /\
  fib_by_recursive 999 1000
  = (if Z.max 1000 1 <=? Z.of_nat 999 then fib_by_loop 1000 else Raise RuntimeError).
Proof.
  split; [lia|]. apply (fib_variants_agree_everywhere 999 1000 [12; 4]). lia.
Defined.

Lemma fib_prefix_prefix (j k : nat) : (j <= k)%nat -> fib_prefix j `prefix_of` fib_prefix k.
Proof.
  intros H. exists (map fib (seq j (k - j))). unfold fib_prefix.
  rewrite <- map_app, <- seq_app. do 2 f_equal. lia.
Qed.

(** X2: the lists of fib_by_dp are nested: for 0 <= m <= n the list
    returned for m is a prefix of the list returned for n. *)
Theorem fib_by_dp_nested (m n : Z) :
  0 <= m <= n ->
  exists lm ln : list Z,
    fib_by_dp m = Return lm /\ fib_by_dp n = Return ln /\ lm `prefix_of` ln.
Proof.
  intros [Hm Hmn]. eexists _, _.
  split; [apply fib_by_dp_spec; exact Hm|].
  split; [apply fib_by_dp_spec; lia|].
  apply fib_prefix_prefix. lia.
Qed.

Lemma fib_by_dp_nested_witness :
  0 <= 3 <= 8 /\
  exists lm ln : list Z,
    fib_by_dp 3 = Return lm /\ fib_by_dp 8 = Return ln /\ lm `prefix_of` ln.
Proof.
  split; [lia|]. apply (fib_by_dp_nested 3 8). lia.
Defined.

(** X3: the last element of the list of fib_by_dp, read as [l[-1]], is the
    number of index max(n, 1): it is what fib_by_loop(n) returns when
    n >= 1, but at n = 0 it is 1 while fib_by_loop(0) is 0. *)
Theorem fib_by_dp_last (n : Z) :
  0 <= n ->
  exists l : list Z,
    fib_by_dp n = Return l /\
    list_getitem l (-1) = Return (fib (Z.to_nat (Z.max n 1))) /\
    (1 <= n -> list_getitem l (-1) = fib_by_loop n) /\
    (n = 0 -> list_getitem l (-1) = Return 1 /\ fib_by_loop n = Return 0).
Proof.
  intros Hn. eexists. split; [apply fib_by_dp_spec; exact Hn|].
  assert (Hlast : list_getitem (fib_prefix (Z.to_nat (Z.max (n + 1) 2))) (-1)
                  = Return (fib (Z.to_nat (Z.max n 1)))).
  { unfold list_getitem. rewrite fib_prefix_length.
    destruct (Z.ltb_spec (-1) 0); [|lia].
    destruct (Z.ltb_spec (-1 + Z.of_nat (Z.to_nat (Z.max (n + 1) 2))) 0); [lia|].
    rewrite fib_prefix_lookup by lia. do 3 f_equal. lia. }
  split; [exact Hlast|]. split.
  - intros H1. rewrite Hlast, fib_by_loop_spec by lia. do 3 f_equal. lia.
  - intros ->. split; [exact Hlast | reflexivity].
Qed.

Lemma fib_by_dp_last_witness :
  0 <= 0 /\
  exists l : list Z,
    fib_by_dp 0 = Return l /\
    list_getitem l (-1) = Return (fib (Z.to_nat (Z.max 0 1))) /\
    (1 <= 0 -> list_getitem l (-1) = fib_by_loop 0) /\
    (0 = 0 -> list_getitem l (-1) = Return 1 /\ fib_by_loop 0 = Return 0).
Proof.
  split; [lia|]. apply (fib_by_dp_last 0). lia.
Defined.

(** ** Further properties: the memoization dictionary, whatever it holds

    [inner] takes the dictionary as an optional second argument, so
    fib_by_cache can be run on any dictionary. *)

Lemma fib_by_cache_hit (n v : Z) (d : gmap Z Z) :
  0 <= n -> d !! n = Some v -> fib_by_cache n d = (Return v, d).
Proof.
  intros Hn Hv. unfold fib_by_cache, cache_for_fib, fib_by_cache_func. cbn [snd].
  destruct (Z.ltb_spec n 0); [lia|].
  unfold sbind, dict_contains, sret, dict_getitem.
  rewrite bool_decide_eq_true_2 by (rewrite Hv; eauto). cbn [negb].
  rewrite Hv. reflexivity.
Qed.

Lemma fib_by_cache_returned (n v : Z) (d d' : gmap Z Z) :
  fib_by_cache n d = (Return v, d') -> 0 <= n /\ d' !! n = Some v.
Proof.
  unfold fib_by_cache, cache_for_fib, fib_by_cache_func. cbn [snd].
  destruct (Z.ltb_spec n 0); [discriminate|].
  unfold sbind at 1. unfold dict_contains.
  unfold sbind at 1.
  match goal with
  | |- context [(if negb ?b then ?loop else sret tt) d] =>
      destruct ((if negb b then loop else sret tt) d) as [[[]|e] d1]
  end; [|discriminate].
  unfold dict_getitem. destruct (d1 !! n) as [v1|] eqn:E; [|discriminate].
  intros [= <- <-]. split; [lia | exact E].
Qed.

(** X4: a successful call of fib_by_cache is idempotent on any dictionary:
    when a call with n returns v, the dictionary it leaves maps n to v, and
    calling again with n returns v and writes nothing. *)
Theorem fib_by_cache_idempotent (n v : Z) (d d' : gmap Z Z) :
  fib_by_cache n d = (Return v, d') ->
  d' !! n = Some v /\ fib_by_cache n d' = (Return v, d').
Proof.
  intros H. destruct (fib_by_cache_returned n v d d' H) as [Hn Hv].
  split; [exact Hv|]. apply fib_by_cache_hit; assumption.
Qed.

Lemma fib_by_cache_idempotent_witness :
  fib_by_cache 4 initial_cache = (Return 3, snd (fib_by_cache 4 initial_cache)) /\
  snd (fib_by_cache 4 initial_cache) !! 4 = Some 3 /\
  fib_by_cache 4 (snd (fib_by_cache 4 initial_cache))
  = (Return 3, snd (fib_by_cache 4 initial_cache)).
Proof.
  assert (H : fib_by_cache 4 initial_cache
              = (Return 3, snd (fib_by_cache 4 initial_cache))) by reflexivity.
  split; [exact H|].
  exact (fib_by_cache_idempotent 4 3 initial_cache _ H).
Defined.

Lemma fib_by_cache_raised (n : Z) (d d' : gmap Z Z) (e : exn) :
  fib_by_cache n d = (Raise e, d') ->
  (n < 0 /\ e = ValueError /\ d' = d) \/ (0 <= n /\ e = KeyError).
Proof.
  unfold fib_by_cache, cache_for_fib, fib_by_cache_func. cbn [snd].
  destruct (Z.ltb_spec n 0) as [Hneg|Hpos].
  { unfold sraise. intros [= <- <-]. left. auto. }
  intros H. right. split; [exact Hpos|]. revert H.
  unfold sbind at 1. unfold dict_contains.
  unfold sbind at 1.
  destruct (negb (bool_decide (is_Some (d !! n)))).
  - unfold sbind at 1. unfold dict_len.
    match goal with
    | |- context [sfor_loop ?body ?l tt d] =>
        destruct (sfor_loop body l tt d) as [[[]|e1] d1] eqn:Eloop
    end.
    + unfold dict_getitem. destruct (d1 !! n); [discriminate|].
      intros [= <- <-]. reflexivity.
    + intros [= <- <-]. revert Eloop.
      apply (sfor_loop_raises (fun e0 => e0 = KeyError)).
      intros [] i s0 s1 e0. unfold sbind, dict_getitem, dict_setitem.
      destruct (s0 !! (i - 1)); [|intros [= <- <-]; reflexivity].
      destruct (s0 !! (i - 2)); [discriminate|intros [= <- <-]; reflexivity].
  - unfold sret, dict_getitem. destruct (d !! n); [discriminate|].
    intros [= <- <-]. reflexivity.
Qed.

Lemma fib_by_cache_empty (n : Z) : 0 <= n -> fib_by_cache n ∅ = (Raise KeyError, ∅).
Proof.
  intros Hn. unfold fib_by_cache, cache_for_fib, fib_by_cache_func. cbn [snd].
  destruct (Z.ltb_spec n 0); [lia|].
  unfold sbind at 1. unfold dict_contains.
  rewrite bool_decide_eq_false_2
    by (rewrite lookup_empty; intros [v Hv]; discriminate).
  cbn [negb]. unfold sbind at 1. unfold sbind at 1. unfold dict_len.
  rewrite map_size_empty. change (Z.of_nat 0) with 0.
  rewrite range_cons by lia. cbn [sfor_loop].
  unfold sbind at 1. unfold sbind at 1. unfold dict_getitem at 1.
  rewrite lookup_empty. reflexivity.
Qed.

(** X5: on any dictionary fib_by_cache raises nothing but [ValueError],
    exactly when n is negative and then without a write, and [KeyError],
    when an entry it reads is missing; on an empty dictionary every call
    with n >= 0 raises [KeyError] and leaves the dictionary empty. *)
Theorem fib_by_cache_errors (n : Z) (d : gmap Z Z) :
  (fst (fib_by_cache n d) = Raise ValueError <-> n < 0) /\
  (forall e : exn,
     fst (fib_by_cache n d) = Raise e -> e = ValueError \/ e = KeyError) /\
  (0 <= n -> fib_by_cache n ∅ = (Raise KeyError, ∅)).
Proof.
  split; [|split].
  - split.
    + destruct (fib_by_cache n d) as [[v|e] d'] eqn:E; cbn [fst]; [discriminate|].
      intros [= ->]. destruct (fib_by_cache_raised _ _ _ _ E) as [(H & _)|(_ & H)];
        [exact H | discriminate].
    + intros Hn. rewrite fib_by_cache_negative by exact Hn. reflexivity.
  - intros e. destruct (fib_by_cache n d) as [[v|e'] d'] eqn:E; cbn [fst];
      [discriminate|].
    intros [= ->]. destruct (fib_by_cache_raised _ _ _ _ E) as [(_ & H & _)|(_ & H)];
      auto.
  - apply fib_by_cache_empty.
Qed.

Lemma fib_by_cache_errors_witness :
  0 <= 5 /\ fib_by_cache 5 ∅ = (Raise KeyError, ∅).
Proof.
  split; [lia|]. apply (proj2 (proj2 (fib_by_cache_errors 5 ∅))). lia.
Defined.

Lemma max_arg_ge_1 (ns : list Z) : 1 <= max_arg ns.
Proof.
  induction ns as [|k ns IH]; [cbn; lia|].
  change (max_arg (k :: ns)) with (Z.max k (max_arg ns)). lia.
Qed.

Lemma run_calls_extent (ns : list Z) (m : nat) :
  (1 <= m)%nat ->
  snd (run_calls ns (fib_map m)) = fib_map (Nat.max m (Z.to_nat (max_arg ns))).
Proof.
  revert m; induction ns as [|n ns IH]; intros m Hm.
  - cbn. f_equal. lia.
  - cbn [run_calls].
    pose proof (max_arg_ge_1 ns) as Hmax.
    change (max_arg (n :: ns)) with (Z.max n (max_arg ns)).
    destruct (Z.ltb_spec n 0) as [Hneg|Hpos].
    + rewrite fib_by_cache_negative by exact Hneg.
      specialize (IH m Hm). destruct (run_calls ns (fib_map m)) as [rs d2].
      cbn [snd] in IH |- *. rewrite IH. f_equal. lia.
    + rewrite fib_by_cache_spec by assumption.
      specialize (IH (Nat.max m (Z.to_nat n)) ltac:(lia)).
      destruct (run_calls ns (fib_map (Nat.max m (Z.to_nat n)))) as [rs d2].
      cbn [snd] in IH |- *. rewrite IH. f_equal. lia.
Qed.

(** X6: after any sequence of calls from the seed, the dictionary holds the
    indices 0..M and nothing beyond, where M is the largest argument called
    so far (at least 1): its size is M + 1.  Rejected calls count for
    nothing. *)
Theorem fib_by_cache_extent (ns : list Z) :
  cache_upto (max_arg ns) (snd (run_calls ns initial_cache)) /\
  Z.of_nat (size (snd (run_calls ns initial_cache))) = max_arg ns + 1.
Proof.
  pose proof (max_arg_ge_1 ns) as Hmax.
  rewrite initial_cache_fib_map, run_calls_extent by lia.
  replace (Nat.max 1 (Z.to_nat (max_arg ns))) with (Z.to_nat (max_arg ns)) by lia.
  split.
  - pose proof (fib_map_lookup (Z.to_nat (max_arg ns))) as H.
    rewrite Z2Nat.id in H by lia. exact H.
  - rewrite fib_map_size. lia.
Qed.

(** ** Further properties: the digits the matrix variant reads *)

Lemma pos_digits_tail (p : positive) (s : string) :
  pos_digits p EmptyString = String "1" s ->
  length (list_ascii_of_string s) = Nat.pred (Pos.to_nat (Pos.size p)) /\
  Forall (fun c => c = "0"%char \/ c = "1"%char) (list_ascii_of_string s) /\
  read_binary (list_ascii_of_string s) 1 = Z.pos p.
Proof.
  revert s; induction p as [p IH|p IH|]; intros s Hs.
  - cbn [pos_digits] in Hs. rewrite pos_digits_acc in Hs.
    destruct (pos_digits_head p) as [s' Hs']. rewrite Hs' in Hs.
    rewrite string_app_cons in Hs. injection Hs as <-.
    destruct (IH s' Hs') as (Hlen & Hall & Hread).
    rewrite list_ascii_of_string_app. cbn [list_ascii_of_string].
    split; [|split].
    + rewrite length_app, Hlen. cbn [length Pos.size]. lia.
    + apply Forall_app. split; [exact Hall|]. constructor; [right; reflexivity | constructor].
    + unfold read_binary in *. rewrite fold_left_app, Hread. cbn. lia.
  - cbn [pos_digits] in Hs. rewrite pos_digits_acc in Hs.
    destruct (pos_digits_head p) as [s' Hs']. rewrite Hs' in Hs.
    rewrite string_app_cons in Hs. injection Hs as <-.
    destruct (IH s' Hs') as (Hlen & Hall & Hread).
    rewrite list_ascii_of_string_app. cbn [list_ascii_of_string].
    split; [|split].
    + rewrite length_app, Hlen. cbn [length Pos.size]. lia.
    + apply Forall_app. split; [exact Hall|]. constructor; [left; reflexivity | constructor].
    + unfold read_binary in *. rewrite fold_left_app, Hread. cbn. lia.
  - cbn in Hs. injection Hs as <-.
    split; [reflexivity|]. split; [constructor | reflexivity].
Qed.

Lemma log2_size (p : positive) : Z.log2 (Z.pos p) = Z.pos (Pos.size p) - 1.
Proof. destruct p; cbn [Z.log2 Pos.size]; lia. Qed.

(** X7: for n >= 1 the string [bin(n)[3:]] that the loop of fib_by_matrix
    runs over holds floor(log2 n) characters, each '0' or '1', and they are
    the binary digits of n after its leading one: read back from 1 they
    give n.  So the loop makes floor(log2 n) passes. *)
Theorem fib_by_matrix_digits (n : Z) :
  1 <= n ->
  let digits := list_ascii_of_string (slice_from 3 (bin n)) in
  Z.of_nat (length digits) = Z.log2 n /\
  Forall (fun c => c = "0"%char \/ c = "1"%char) digits /\
  read_binary digits 1 = n.
Proof.
  intros Hn digits. subst digits. destruct n as [|p|p]; try lia.
  destruct (pos_digits_head p) as [s Hs].
  replace (slice_from 3 (bin (Z.pos p))) with s
    by (cbn [bin slice_from]; rewrite Hs; reflexivity).
  destruct (pos_digits_tail p s Hs) as (Hlen & Hall & Hread).
  split; [|split; assumption].
  rewrite Hlen, log2_size. lia.
Qed.

Lemma fib_by_matrix_digits_witness :
  1 <= 10 /\
  let digits := list_ascii_of_string (slice_from 3 (bin 10)) in
  Z.of_nat (length digits) = Z.log2 10 /\
  Forall (fun c => c = "0"%char \/ c = "1"%char) digits /\
  read_binary digits 1 = 10.
Proof.
  split; [lia|]. apply (fib_by_matrix_digits 10). lia.
Defined.

(** ** Further properties: the Monte Carlo estimator *)

Section Draws.

Variable float_pow : float -> Z -> result float.
Variable rng : Type.
Variable random_random : rng -> float * rng.

Lemma advance_S (k : nat) (g : rng) :
  advance random_random (S k) g
  = advance random_random k (snd (random_random g)).
Proof. unfold advance. rewrite Nat.iter_succ_r. reflexivity. Qed.

(** Pair [i] is made of draws [2 i] and [2 i + 1], x first. *)
Lemma drawn_pairs_lookup (k i : nat) (g : rng) :
  (i < k)%nat ->
  drawn_pairs random_random k g !! i
  = Some (fst (random_random (advance random_random (2 * i) g)),
          fst (random_random (advance random_random (2 * i + 1) g))).
Proof.
  revert i g; induction k as [|k IH]; intros i g Hi; [lia|].
  cbn [drawn_pairs].
  destruct (random_random g) as [x g1] eqn:E1.
  destruct (random_random g1) as [y g2] eqn:E2.
  destruct i as [|i].
  - cbn [lookup list_lookup]. change (2 * 0 + 1)%nat with 1%nat.
    change (advance random_random (2 * 0) g) with g.
    change (advance random_random 1 g) with (snd (random_random g)).
    rewrite E1. cbn [fst snd]. rewrite E2. reflexivity.
  - change ((_ :: ?l) !! S i) with (l !! i). rewrite IH by lia.
    replace (2 * S i)%nat with (S (S (2 * i))) by lia.
    replace (S (S (2 * i)) + 1)%nat with (S (S (2 * i + 1))) by lia.
    rewrite !advance_S, E1. cbn [snd]. rewrite E2. reflexivity.
Qed.

Lemma pi_simulation_by_random_loop (l : list Z) (acc c : Z) (g g' : rng) :
  sfor_loop
    (fun count (_ : Z) =>
       (x <- (fun g0 => let '(v, g1) := random_random g0 in (Return v, g1)) ;;
        y <- (fun g0 => let '(v, g1) := random_random g0 in (Return v, g1)) ;;
        x2 <- lift (float_pow x 2) ;;
        y2 <- lift (float_pow y 2) ;;
        if float_le_int (float_add x2 y2) 1 then sret (count + 1)
        else sret count)%state)
    l acc g = (Return c, g') ->
  g' = advance random_random (2 * length l) g /\
  c = acc + Z.of_nat (length (List.filter (is_hit float_pow)
                                (drawn_pairs random_random (length l) g))).
Proof.
  revert acc g; induction l as [|i l IH]; intros acc g.
  - cbn [sfor_loop]. unfold sret. intros [= <- <-]. cbn. split; [reflexivity | lia].
  - cbn [sfor_loop]. unfold sbind at 1.
    match goal with
    | |- context [match ?body g with _ => _ end] =>
        destruct (body g) as [[acc'|e] g1] eqn:Ebody
    end; [|discriminate].
    intros Hrest. destruct (IH _ _ Hrest) as [Hg Hc].
    revert Ebody. unfold sbind, lift, sret.
    cbn [length drawn_pairs].
    destruct (random_random g) as [x s2] eqn:E1.
    destruct (random_random s2) as [y s3] eqn:E2.
    cbn [List.filter].
    change (is_hit float_pow (x, y))
      with (match float_pow x 2, float_pow y 2 with
            | Return x2, Return y2 => float_le_int (float_add x2 y2) 1
            | _, _ => false
            end).
    destruct (float_pow x 2) as [x2|]; [|discriminate].
    destruct (float_pow y 2) as [y2|]; [|discriminate].
    replace (2 * S (length l))%nat with (S (S (2 * length l))) by lia.
    rewrite !advance_S, E1. cbn [snd]. rewrite E2. cbn [snd].
    destruct (float_le_int _ _); intros [= <- <-];
      (split; [exact Hg | cbn [length]; lia]).
Qed.

(** X8: when pi_simulation_by_random(n) returns, n is at least 1, the
    generator has been drawn from exactly 2n times, pair i being made of
    draws 2i and 2i+1, and the value returned is [4 * hits / float(n)],
    where hits is the number of pairs (x, y) among the n drawn for which the
    test [x ** 2 + y ** 2 <= 1] of the loop holds. *)
Theorem pi_simulation_by_random_returns (n : Z) (g g' : rng) (f : float) :
  pi_simulation_by_random float_pow random_random n g = (Return f, g') ->
  let pairs := drawn_pairs random_random (Z.to_nat n) g in
  1 <= n /\
  g' = advance random_random (2 * Z.to_nat n) g /\
  Z.of_nat (length pairs) = n /\
  (forall i : nat,
     (i < Z.to_nat n)%nat ->
     pairs !! i
     = Some (fst (random_random (advance random_random (2 * i) g)),
             fst (random_random (advance random_random (2 * i + 1) g)))) /\
  hits float_pow random_random n g
  = Z.of_nat (length (List.filter (is_hit float_pow) pairs)) /\
  0 <= hits float_pow random_random n g <= n /\
  (den <- float_of_int n ;;
   int_div_float (4 * hits float_pow random_random n g) den)%result = Return f.
Proof.
  intros H pairs. revert H. unfold pi_simulation_by_random.
  destruct (Z.ltb_spec n 0) as [Hneg|Hpos]; [discriminate|].
  unfold sbind at 1.
  match goal with
  | |- context [sfor_loop ?body ?l ?acc g] =>
      destruct (sfor_loop body l acc g) as [[k|e] g1] eqn:Eloop
  end; [|discriminate].
  destruct (pi_simulation_by_random_loop _ _ _ _ _ Eloop) as [Hg Hk].
  rewrite range_length in Hg, Hk.
  replace (n - 0) with n in Hg, Hk by lia.
  unfold sbind, lift. cbn [bind].
  destruct (float_of_int n) as [den|] eqn:Eden; [|discriminate].
  intros [= Hf <-].
  assert (Hk' : k = hits float_pow random_random n g) by (unfold hits; lia).
  assert (Hlen : length pairs = Z.to_nat n) by apply drawn_pairs_length.
  assert (Hhits : 0 <= hits float_pow random_random n g <= n).
  { unfold hits. fold pairs.
    pose proof (List.filter_length_le (is_hit float_pow) pairs). lia. }
  assert (Hn : 1 <= n).
  { destruct (Z.eq_dec n 0) as [E|]; [|lia]. exfalso.
    assert (k = 0) as -> by lia. rewrite E in Eden. revert Hf.
    vm_compute in Eden. injection Eden as <-. discriminate. }
  subst k.
  split; [exact Hn|]. split; [exact Hg|]. split; [lia|].
  split; [intros i Hi; apply drawn_pairs_lookup; exact Hi|].
  split; [reflexivity|].
  split; [exact Hhits|]. cbn [bind]. exact Hf.
Qed.

End Draws.

Lemma pi_simulation_by_random_returns_witness :
  pi_simulation_by_random pow_reference lcg_random 3 1
  = (Return (SFdiv prec emax (binary_normalize prec emax 12 0 false)
               (binary_normalize prec emax 3 0 false)),
     advance lcg_random 6 1) /\
  let pairs := drawn_pairs lcg_random (Z.to_nat 3) 1 in
  1 <= 3 /\
  advance lcg_random 6 1 = advance lcg_random (2 * Z.to_nat 3) 1 /\
  Z.of_nat (length pairs) = 3 /\
  (forall i : nat,
     (i < Z.to_nat 3)%nat ->
     pairs !! i
     = Some (fst (lcg_random (advance lcg_random (2 * i) 1)),
             fst (lcg_random (advance lcg_random (2 * i + 1) 1)))) /\
  hits pow_reference lcg_random 3 1
  = Z.of_nat (length (List.filter (is_hit pow_reference) pairs)) /\
  0 <= hits pow_reference lcg_random 3 1 <= 3 /\
  (den <- float_of_int 3 ;;
   int_div_float (4 * hits pow_reference lcg_random 3 1) den)%result
  = Return (SFdiv prec emax (binary_normalize prec emax 12 0 false)
              (binary_normalize prec emax 3 0 false)).
Proof.
  assert (H : pi_simulation_by_random pow_reference lcg_random 3 1
              = (Return (SFdiv prec emax (binary_normalize prec emax 12 0 false)
                           (binary_normalize prec emax 3 0 false)),
                 advance lcg_random 6 1)) by reflexivity.
  split; [exact H|].
  exact (pi_simulation_by_random_returns pow_reference Z lcg_random 3 1 _ _ H).
Defined.

(** ** Further properties: the closed form beyond the float range *)

Lemma pow_reference_phi_overflow_from (n : Z) :
  2050 <= n -> pow_reference float_phi n = Raise OverflowError.
Proof.
  intros Hn. unfold pow_reference, float_phi.
  destruct (Z.eqb_spec n 0); [lia|].
  destruct (Z.ltb_spec 0 n); [|lia].
  cbn [andb cond_Zopp].
  pose proof (Z.div_mod n 2 ltac:(lia)) as Hdiv.
  pose proof (Z.mod_pos_bound n 2 ltac:(lia)) as Hmod.
  set (j := n / 2) in *. set (r := n mod 2) in *.
  assert (Hj : 1025 <= j) by lia.
  assert (Hlow : 2 ^ (105 * j + 52 * r) <= Z.pos 7286977268806824 ^ n).
  { replace (Z.pos 7286977268806824 ^ n)
      with (Z.pos 7286977268806824 ^ (2 * j + r)) by (f_equal; lia).
    rewrite !Z.pow_add_r, !Z.pow_mul_r by lia.
    apply Z.mul_le_mono_nonneg.
    - apply Z.pow_nonneg. apply Z.pow_nonneg. lia.
    - apply Z.pow_le_mono_l. split; [apply Z.pow_nonneg; lia|].
      vm_compute. discriminate.
    - apply Z.pow_nonneg. apply Z.pow_nonneg. lia.
    - apply Z.pow_le_mono_l. split; [apply Z.pow_nonneg; lia|].
      vm_compute. discriminate. }
  assert (Hpos : 0 < 2 ^ (105 * j + 52 * r)) by (apply Z.pow_pos_nonneg; lia).
  destruct (Z.pos 7286977268806824 ^ n) as [|p|p]; try lia.
  rewrite binary_normalize_overflow; [reflexivity|].
  pose proof (digits2_pos_value_upper p) as Hup.
  assert (105 * j + 52 * r < Z.pos (digits2_pos p)).
  { apply (Z.pow_lt_mono_r_iff 2); lia. }
  unfold emax. lia.
Qed.

(** X9: with a correctly rounded power, both closed-form functions raise
    [OverflowError] for every n from 2050 on: the power of the golden ratio
    is beyond the float range, which is the float overflow the script's
    comment announces for large n. *)
Theorem binet_overflows (n : Z) :
  2050 <= n ->
  fib_by_binet pow_reference n = Raise OverflowError /\
  fib_by_binet_approx pow_reference n = Raise OverflowError.
Proof.
  intros Hn. split.
  - rewrite fib_by_binet_unfold by lia.
    rewrite pow_reference_phi_overflow_from by exact Hn. reflexivity.
  - rewrite fib_by_binet_approx_unfold by lia.
    rewrite pow_reference_phi_overflow_from by exact Hn. reflexivity.
Qed.

Lemma binet_overflows_witness :
  2050 <= 3001 /\
  fib_by_binet pow_reference 3001 = Raise OverflowError /\
  fib_by_binet_approx pow_reference 3001 = Raise OverflowError.
Proof.
  split; [lia|]. apply (binet_overflows 3001). lia.
Defined.

(** ** Further properties: how far the closed form is exact *)

(** X10: with a correctly rounded power, fib_by_binet returns the exact
    Fibonacci number for 0 <= n <= 71 and one too many at n = 72, and
    fib_by_binet_approx is exact for 0 <= n <= 70 and one too many at
    n = 71: this is where the loss of precision the script's comment warns
    of sets in. *)
Theorem binet_exact_range (n : Z) :
  (0 <= n <= 71 -> fib_by_binet pow_reference n = Return (fib (Z.to_nat n))) /\
  (n = 72 -> fib_by_binet pow_reference n = Return (fib (Z.to_nat n) + 1)) /\
  (0 <= n <= 70 -> fib_by_binet_approx pow_reference n = Return (fib (Z.to_nat n))) /\
  (n = 71 -> fib_by_binet_approx pow_reference n = Return (fib (Z.to_nat n) + 1)).
Proof.
  assert (Hzero : fib_by_binet pow_reference 0 = Return 0 /\
                  fib_by_binet_approx pow_reference 0 = Return 0)
    by (split; reflexivity).
  assert (Hat : forall i, 1 <= i <= 72 ->
            exists a b,
              fib_by_binet pow_reference i = Return a /\
              fib_by_binet_approx pow_reference i = Return b /\
              a = (if i =? 72 then fib (Z.to_nat i) + 1 else fib (Z.to_nat i)) /\
              (b = (if 71 <=? i then fib (Z.to_nat i) + 1 else fib (Z.to_nat i))
               \/ i = 72)).
  { intros i Hi.
    pose proof (binet_table_checked
      (fun '(i, (u, v)) =>
         match u, v, fib_by_loop i with
         | Return a, Return b, Return c =>
             (a =? (if i =? 72 then c + 1 else c))
             && ((b =? (if 71 <=? i then c + 1 else c)) || (i =? 72))
         | _, _, _ => false
         end) 72 ltac:(vm_compute; reflexivity) i Hi) as Hall.
    cbv beta iota in Hall.
    rewrite fib_by_loop_spec in Hall by lia.
    destruct (fib_by_binet pow_reference i) as [a|]; [|discriminate].
    destruct (fib_by_binet_approx pow_reference i) as [b|]; [|discriminate].
    apply andb_true_iff in Hall. destruct Hall as [Ha Hb].
    apply Z.eqb_eq in Ha. apply orb_true_iff in Hb.
    exists a, b. repeat split; [exact Ha|].
    destruct Hb as [Hb|Hb]; [left; apply Z.eqb_eq, Hb | right; apply Z.eqb_eq, Hb]. }
  split; [|split; [|split]].
  - intros Hn. destruct (Z.eq_dec n 0) as [->|Hne]; [apply Hzero|].
    destruct (Hat n ltac:(lia)) as (a & b & -> & _ & -> & _).
    destruct (Z.eqb_spec n 72); [lia | reflexivity].
  - intros ->. destruct (Hat 72 ltac:(lia)) as (a & b & -> & _ & -> & _). reflexivity.
  - intros Hn. destruct (Z.eq_dec n 0) as [->|Hne]; [apply Hzero|].
    destruct (Hat n ltac:(lia)) as (a & b & _ & -> & _ & [-> | ->]); [|lia].
    destruct (Z.leb_spec 71 n); [lia | reflexivity].
  - intros ->. destruct (Hat 71 ltac:(lia)) as (a & b & _ & -> & _ & [-> | Hb]);
      [reflexivity | discriminate].
Qed.

Lemma binet_exact_range_witness :
  0 <= 60 <= 71 /\ fib_by_binet pow_reference 60 = Return (fib (Z.to_nat 60)).
Proof.
  split; [lia|]. apply (proj1 (binet_exact_range 60)). lia.
Defined.

(** ** Further properties: bounds on the lattice count *)


